(** * The portfolio page's two stateful behaviours

    A shallow embedding of [src/app/page.tsx]: the [TypeWriterText]
    component (typing / pausing / deleting loop driven by [setTimeout]) and
    the project modal ([Home]'s [selectedProject] / [isModalOpen] state with
    [ProjectModal]'s effect on the page).

    React is modelled at the granularity of committed renders: a handler or
    timer callback runs to completion, its state updates are batched, the
    component re-renders when some state changed, and an effect whose
    dependencies changed runs its previous cleanup and then its body. *)

From Stdlib Require Import String Ascii List Arith Bool Lia.
From stdpp Require Import base option list gmap strings pretty.
Import ListNotations.
Local Open Scope string_scope.
Local Open Scope nat_scope.

(** ** Timers of the browser's event loop

    [window.setTimeout] returns a fresh positive handle and queues the
    callback; [clearTimeout] drops the timer with that handle, if it is
    still pending. The timer that fires next is the one due first, and among
    timers due at the same time the one that was set first. *)
Module EventLoop.
Section Loop.
Context {C : Type}.

Record timer := Timer { handle : nat; due : nat; callback : C }.

Record loop := Loop {
  now : nat;                (* milliseconds *)
  nextHandle : nat;
  pending : list timer      (* in the order they were set *)
}.

Definition start : loop := Loop 0 1 [].

Definition setTimeout (cb : C) (delay : nat) (l : loop) : nat * loop :=
  (nextHandle l,
   Loop (now l) (S (nextHandle l))
        (pending l ++ [Timer (nextHandle l) (now l + delay) cb])).

Definition clearTimeout (h : nat) (l : loop) : loop :=
  Loop (now l) (nextHandle l)
       (List.filter (fun t => negb (handle t =? h)) (pending l)).

Fixpoint earliest (ts : list timer) : option timer :=
  match ts with
  | [] => None
  | t :: ts' =>
      match earliest ts' with
      | Some u => if due u <? due t then Some u else Some t
      | None => Some t
      end
  end.

(** The timer [t] fires: it leaves the queue and the clock is at least
    its due time. *)
Definition fired (t : timer) (l : loop) : loop :=
  Loop (Nat.max (now l) (due t)) (nextHandle l)
       (List.filter (fun u => negb (handle u =? handle t)) (pending l)).

(** Time passes without any timer firing: at most [dt], and never past
    the due time of a pending timer. *)
Definition idle (dt : nat) (l : loop) : loop :=
  match earliest (pending l) with
  | Some t => Loop (Nat.max (now l) (Nat.min (now l + dt) (due t)))
                   (nextHandle l) (pending l)
  | None => Loop (now l + dt) (nextHandle l) (pending l)
  end.

End Loop.
Arguments timer : clear implicits.
Arguments loop : clear implicits.
End EventLoop.

(** ** [TypeWriterText] *)
Module TypeWriter.
Import EventLoop.

Inductive jsError := TypeError.

(** [currentIndex] is a JavaScript number: a natural number here, or the
    [NaN] that [% 0] produces. *)
Inductive index := Idx (n : nat) | NaN.

Definition index_eqb (a b : index) : bool :=
  match a, b with
  | Idx m, Idx n => m =? n
  | NaN, NaN => true       (* dependencies are compared with Object.is *)
  | _, _ => false
  end.

Definition succ (a : index) : index :=
  match a with Idx n => Idx (n + 1) | NaN => NaN end.

Definition rem (a : index) (n : nat) : index :=
  match a with
  | Idx k => if n =? 0 then NaN else Idx (k mod n)
  | NaN => NaN
  end.

Record TypeWriterProps := Props {
  texts : list string;
  typeSpeed : option nat;
  deleteSpeed : option nat;
  delayBetween : option nat
}.

(** What a pending timer will run. The tick closes over the values of the
    render whose effect set it. *)
Inductive closure :=
| Tick (displayText : string) (isDeleting : bool) (currentText : option string)
| StartDeleting.

Record state := State {
  displayText : string;
  currentIndex : index;
  isDeleting : bool;
  delayTimer : option nat;      (* useRef<number | null>(null) *)
  timeout : option nat;         (* the handle the pending cleanup closes over *)
  mounted : bool;
  uncaught : list jsError;      (* errors thrown out of timer callbacks *)
  timers : loop closure
}.

Inductive phase := Typing | PausingBeforeDelete | Deleting.

Inductive event :=
| Fire                  (* the next pending timer fires *)
| Idle (dt : nat)       (* time passes, no timer is due yet *)
| ParentRender          (* Home re-renders and passes a fresh [texts] array *)
| Unmount.

Section Component.
Variable props : TypeWriterProps.

Definition type_speed : nat := default 80 (typeSpeed props).
Definition delete_speed : nat := default 40 (deleteSpeed props).
Definition delay_between : nat := default 1800 (delayBetween props).

(** [texts[currentIndex]], [undefined] out of range. *)
Definition text_at (i : index) : option string :=
  match i with Idx n => texts props !! n | NaN => None end.

Definition with_timers (l : loop closure) (s : state) : state :=
  State (displayText s) (currentIndex s) (isDeleting s) (delayTimer s)
        (timeout s) (mounted s) (uncaught s) l.

(** State setters do nothing once the component is unmounted. *)
Definition setDisplayText (d : string) (s : state) : state :=
  if mounted s
  then State d (currentIndex s) (isDeleting s) (delayTimer s) (timeout s)
             (mounted s) (uncaught s) (timers s)
  else s.

Definition setIsDeleting (b : bool) (s : state) : state :=
  if mounted s
  then State (displayText s) (currentIndex s) b (delayTimer s) (timeout s)
             (mounted s) (uncaught s) (timers s)
  else s.

Definition setCurrentIndex (f : index -> index) (s : state) : state :=
  if mounted s
  then State (displayText s) (f (currentIndex s)) (isDeleting s)
             (delayTimer s) (timeout s) (mounted s) (uncaught s) (timers s)
  else s.

Definition tick_closure (s : state) : closure :=
  Tick (displayText s) (isDeleting s) (text_at (currentIndex s)).

(** The body of [useEffect]. *)
Definition effect (s : state) : state :=
  let '(h, l) :=
    setTimeout (tick_closure s)
               (if isDeleting s then delete_speed else type_speed)
               (timers s) in
  State (displayText s) (currentIndex s) (isDeleting s) (delayTimer s)
        (Some h) (mounted s) (uncaught s) l.

(** [if (delayTimer.current)]: a handle is truthy unless it is 0. *)
Definition truthy (h : nat) : bool := negb (h =? 0).

(** The function the effect returns. *)
Definition cleanup (s : state) : state :=
  let l1 := match timeout s with
            | Some h => clearTimeout h (timers s)
            | None => timers s
            end in
  let l2 := match delayTimer s with
            | Some h => if truthy h then clearTimeout h l1 else l1
            | None => l1
            end in
  with_timers l2 s.

Definition deps_changed (old new : state) : bool :=
  negb (String.eqb (displayText old) (displayText new)
        && index_eqb (currentIndex old) (currentIndex new)
        && Bool.eqb (isDeleting old) (isDeleting new)).

(** After a callback: re-render if some state changed, and then the
    effect's dependencies changed too. *)
Definition commit (old new : state) : state :=
  if mounted new && deps_changed old new then effect (cleanup new) else new.

(** The bodies of the two timer closures. *)
Definition run (cb : closure) (s : state) : jsError + state :=
  match cb with
  | Tick d deleting currentText =>
      if negb deleting then
        match currentText with
        | None => inl TypeError          (* undefined.length *)
        | Some txt =>
            if String.length d <? String.length txt
            then inr (setDisplayText (substring 0 (String.length d + 1) txt) s)
            else
              let '(h, l) := setTimeout StartDeleting delay_between (timers s) in
              inr (State (displayText s) (currentIndex s) (isDeleting s)
                         (Some h) (timeout s) (mounted s) (uncaught s) l)
        end
      else
        if 0 <? String.length d
        then inr (setDisplayText (substring 0 (String.length d - 1) d) s)
        else inr (setCurrentIndex
                    (fun prev => rem (succ prev) (length (texts props)))
                    (setIsDeleting false s))
  | StartDeleting => inr (setIsDeleting true s)
  end.

Definition fire (s : state) : state :=
  match earliest (pending (timers s)) with
  | None => s
  | Some t =>
      let s0 := with_timers (fired t (timers s)) s in
      match run (callback t) s0 with
      | inl e =>
          State (displayText s0) (currentIndex s0) (isDeleting s0)
                (delayTimer s0) (timeout s0) (mounted s0)
                (e :: uncaught s0) (timers s0)
      | inr s1 => commit s0 s1
      end
  end.

Definition unmount (s : state) : state :=
  let s' := cleanup s in
  State (displayText s') (currentIndex s') (isDeleting s') (delayTimer s')
        (timeout s') false (uncaught s') (timers s').

Definition step (e : event) (s : state) : state :=
  match e with
  | Fire => fire s
  | Idle dt => with_timers (idle dt (timers s)) s
  | ParentRender => if mounted s then effect (cleanup s) else s
  | Unmount => if mounted s then unmount s else s
  end.

(** First render: [useState("")], [useState(0)], [useState(false)],
    [useRef(null)], then the effect. *)
Definition mount : state :=
  effect (State "" (Idx 0) false None None true [] start).

(** The component right after an effect run at index [i] with nothing
    shown, as it is at the start of every cycle. *)
Definition start_at (i : nat) : state :=
  effect (State "" (Idx i) false None None true [] start).

Definition run_events (es : list event) (s : state) : state :=
  fold_left (fun s e => step e s) es s.

Inductive reachable : state -> Prop :=
| reach_mount : reachable mount
| reach_step e s : reachable s -> reachable (step e s).

(** [<span>{displayText}</span>] *)
Definition render (s : state) : string := displayText s.

Definition is_delay (t : timer closure) : bool :=
  match callback t with StartDeleting => true | Tick _ _ _ => false end.

(** The spec's three phases, read off the hook state: the pause is the
    time during which the delay timer is pending. *)
Definition phase_of (s : state) : phase :=
  if isDeleting s then Deleting
  else if existsb is_delay (pending (timers s)) then PausingBeforeDelete
  else Typing.

Definition clock (s : state) : nat := now (timers s).


(** *** Well-formed states

    A mounted component over a non-empty [texts] always has exactly one
    timer pending: the tick of the last effect run, or the pause timer that
    a tick set. *)

Definition ticking_due (s : state) (d : nat) : Prop :=
  exists h, pending (timers s) = [Timer h d (tick_closure s)]
            /\ timeout s = Some h /\ clock s <= d.

Definition pausing_due (s : state) (d : nat) : Prop :=
  exists h, pending (timers s) = [Timer h d StartDeleting]
            /\ delayTimer s = Some h /\ 0 < h /\ clock s <= d
            /\ isDeleting s = false
            /\ text_at (currentIndex s) = Some (displayText s).

Definition ticking (s : state) : Prop := exists d, ticking_due s d.
Definition pausing (s : state) : Prop := exists d, pausing_due s d.

Definition shows_prefix (s : state) : Prop :=
  exists n txt, currentIndex s = Idx n /\ texts props !! n = Some txt
                /\ String.prefix (displayText s) txt = true.

Record live (s : state) : Prop := Live {
  live_mounted : mounted s = true;
  live_handle : 0 < nextHandle (timers s);
  live_text : shows_prefix s;
  live_queue : ticking s \/ pausing s
}.

Definition inv (s : state) : Prop :=
  shows_prefix s
  /\ (mounted s = true -> live s)
  /\ (mounted s = false -> pending (timers s) = []).

(** The part of the invariant that needs nothing of [texts]: whatever is
    pending is the timer one of the two handles of the cleanup names. *)
Definition tidy (s : state) : Prop :=
  0 < nextHandle (timers s)
  /\ (pending (timers s) = []
      \/ (mounted s = true /\ exists h d cb,
            pending (timers s) = [Timer h d cb]
            /\ (timeout s = Some h \/ (delayTimer s = Some h /\ 0 < h)))).

(** The hook state a render reads. *)
Definition hooks (s : state) : string * index * bool * option nat :=
  (displayText s, currentIndex s, isDeleting s, delayTimer s).

(** The state first has [isDeleting] set [t] milliseconds after [s]. *)
Definition deleting_after (s : state) (t : nat) : Prop :=
  exists n,
    isDeleting (Nat.iter n fire s) = true
    /\ (forall m, m < n -> isDeleting (Nat.iter m fire s) = false)
    /\ clock (Nat.iter n fire s) = clock s + t.

(** No tick ever raises, and the text shown is empty. *)
Definition fails_safe : Prop :=
  forall s, reachable s -> render s = "" /\ uncaught s = [].

Definition len (s : state) : nat := String.length (displayText s).

(** Nothing is ever typed: the only timer there can be is a tick over
    [texts[0] = undefined]. *)
Definition stalled (s : state) : Prop :=
  hooks s = ("", Idx 0, false, None)
  /\ (pending (timers s) = []
      \/ exists h d, pending (timers s) = [Timer h d (Tick "" false None)]
                     /\ timeout s = Some h).

(** The timer firings that [k] full cycles from the mount take: cycle [j]
    types and deletes [texts[j % texts.length]]. *)
Fixpoint cycles_firings (k : nat) : nat :=
  match k with
  | 0 => 0
  | S k' =>
      2 * String.length
            (default "" (texts props !! (k' mod length (texts props)))) + 3
      + cycles_firings k'
  end.

End Component.

(** The scenario of the specification, in unit ticks. *)
Definition ab : TypeWriterProps := Props ["ab"] (Some 1) (Some 1) (Some 1).

Definition frames (p : TypeWriterProps) (n : nat) : list (nat * string * phase) :=
  map (fun k => let s := Nat.iter k (fire p) (mount p) in
                (clock s, render s, phase_of s))
      (seq 0 n).

(** The typewriter of the page's hero section. *)
Definition hero : TypeWriterProps :=
  Props ["Student at Vanderbilt"; "I like building things"; "Learning in public"]
        None None None.

Definition no_texts : TypeWriterProps := Props [] None None None.

(** The state of the scenario right after the tick that typed the last
    character of ["ab"]. *)
Definition ab_complete : state := Nat.iter 2 (fire ab) (mount ab).

End TypeWriter.

(** ** [Home] and [ProjectModal] *)
Module Modal.
Import EventLoop.

Record Project := {
  id : nat;
  title : string;
  description : string;
  fullDescription : option string;
  technologies : list string;
  features : option (list string);
  challenges : option string;
  demoUrl : option string;
  githubUrl : option string;
  image : option string          (* string | null | undefined *)
}.

(** [x && ...] and [x || ...] on an optional string: the empty string is
    falsy like [undefined]. *)
Definition truthy (o : option string) : option string :=
  match o with
  | Some s => if String.eqb s "" then None else Some s
  | None => None
  end.

(** What the dialog shows, top to bottom. *)
Record Dialog := {
  labelledby : string;                  (* aria-labelledby={titleId} *)
  hero : string + string;               (* <img src=...> or title.charAt(0) *)
  heading : string;
  summary : string;                     (* fullDescription || description *)
  whatIDid : option (list string);
  notes : option string;
  stack : list string;
  liveDemo : option string;
  viewCode : option string
}.

Definition dialog (project : Project) : Dialog :=
  let titleId := "project-title-" +:+ pretty (id project) in
  {| labelledby := titleId;
     hero := match truthy (image project) with
             | Some src => inl src
             | None => inr (substring 0 1 (title project))
             end;
     heading := title project;
     summary := default (description project) (truthy (fullDescription project));
     whatIDid := match features project with
                 | Some (f :: fs) => Some (f :: fs)
                 | _ => None
                 end;
     notes := truthy (challenges project);
     stack := technologies project;
     liveDemo := truthy (demoUrl project);
     viewCode := truthy (githubUrl project) |}.

(** [if (!isOpen || !project) return null;] and then the dialog. *)
Definition ProjectModal (project : option Project) (isOpen : bool)
  : option Dialog :=
  if negb isOpen then None
  else match project with
       | None => None
       | Some p => Some (dialog p)
       end.

(** *** The page *)

Inductive listener :=
| OnKeyDown (run : nat)       (* the closure of the [run]-th effect run *)
| Foreign (tag : nat).        (* somebody else's listener *)

Definition listener_eqb (a b : listener) : bool :=
  match a, b with
  | OnKeyDown m, OnKeyDown n => m =? n
  | Foreign m, Foreign n => m =? n
  | _, _ => false
  end.

Inductive element := CloseButton | Body | Elsewhere.

Record page := Page {
  bodyStyle : gmap string string;     (* document.body.style *)
  keydown : list listener;            (* window's keydown listeners *)
  activeElement : element
}.

(** [() => setSelectedProject(null)] *)
Inductive task := ClearSelectedProject.

Record state := State {
  selectedProject : option Project;
  isModalOpen : bool;
  dirty : bool;               (* a setter changed some state: re-render due *)
  mounted : bool;
  onKeyDown : option nat;     (* the listener the pending cleanup removes *)
  effectRuns : nat;
  timers : loop task;
  document : page
}.

Inductive event :=
| Click (project : Project)     (* a project card: handleProjectClick *)
| CloseModal                    (* close button or backdrop: onClose *)
| KeyEscape                     (* keydown with e.key === "Escape" *)
| Wait (dt : nat)               (* dt milliseconds pass *)
| Unmount.

(** The close delay of [handleCloseModal]. *)
Definition closeDelay : nat := 300.

Definition with_timers (l : loop task) (s : state) : state :=
  State (selectedProject s) (isModalOpen s) (dirty s) (mounted s)
        (onKeyDown s) (effectRuns s) l (document s).

(** A clicked card passes the project object of the latest render, a fresh
    reference; [null] and booleans are compared by value. *)
Definition setSelectedProject (p : option Project) (s : state) : state :=
  if mounted s
  then State p (isModalOpen s)
             (dirty s || match p, selectedProject s with
                         | None, None => false
                         | _, _ => true
                         end)
             (mounted s) (onKeyDown s) (effectRuns s) (timers s) (document s)
  else s.

Definition setIsModalOpen (b : bool) (s : state) : state :=
  if mounted s
  then State (selectedProject s) b
             (dirty s || negb (Bool.eqb b (isModalOpen s)))
             (mounted s) (onKeyDown s) (effectRuns s) (timers s) (document s)
  else s.

Definition handleProjectClick (project : Project) (s : state) : state :=
  setIsModalOpen true (setSelectedProject (Some project) s).

Definition handleCloseModal (s : state) : state :=
  let s1 := setIsModalOpen false s in
  with_timers (snd (setTimeout ClearSelectedProject closeDelay (timers s1))) s1.

Definition render (s : state) : option Dialog :=
  ProjectModal (selectedProject s) (isModalOpen s).

(** [document.body.style.overflow = v]. [overflow] is a shorthand: the
    assignment rewrites its longhands [overflow-x] and [overflow-y] too. *)
Definition setOverflow (v : string) (style : gmap string string)
  : gmap string string :=
  <["overflow" := v]> (<["overflow-x" := v]> (<["overflow-y" := v]> style)).

(** The focus once the dialog has left the page: the close button is gone
    with it, and a focus that was on it falls back to the body. *)
Definition blur (e : element) : element :=
  match e with CloseButton => Body | _ => e end.

(** What the re-render does to the page before the effects run: the close
    button is part of the dialog that [ProjectModal] returns after its
    guard, so a render that returns [null] takes it out of the document. *)
Definition reconcile (s : state) : state :=
  let d := document s in
  State (selectedProject s) (isModalOpen s) (dirty s) (mounted s)
        (onKeyDown s) (effectRuns s) (timers s)
        (Page (bodyStyle d) (keydown d)
              (match render s with
               | Some _ => activeElement d
               | None => blur (activeElement d)
               end)).

(** The body of [ProjectModal]'s effect. The focus request of
    [requestAnimationFrame] is taken at once; [closeBtnRef.current] is the
    button of the rendered dialog, if there is one. *)
Definition effect (s : state) : state :=
  let d := document s in
  let r := effectRuns s in
  let isOpen := isModalOpen s in
  State (selectedProject s) (isModalOpen s) (dirty s) (mounted s)
        (Some r) (S r) (timers s)
        (Page (setOverflow (if isOpen then "hidden" else "unset") (bodyStyle d))
              (if isOpen then keydown d ++ [OnKeyDown r] else keydown d)
              (if isOpen
               then match render s with
                    | Some _ => CloseButton
                    | None => activeElement d
                    end
               else activeElement d)).

(** The function the effect returns. *)
Definition cleanup (s : state) : state :=
  let d := document s in
  State (selectedProject s) (isModalOpen s) (dirty s) (mounted s)
        (onKeyDown s) (effectRuns s) (timers s)
        (Page (setOverflow "unset" (bodyStyle d))
              (match onKeyDown s with
               | Some r => List.filter
                             (fun l => negb (listener_eqb l (OnKeyDown r)))
                             (keydown d)
               | None => keydown d
               end)
              (activeElement d)).

(** After a handler or a timer callback: if some state changed, [Home]
    re-renders, the document is updated, [onClose] is a new function and the
    effect runs again. *)
Definition commit (s : state) : state :=
  if mounted s && dirty s
  then let s' := effect (cleanup (reconcile s)) in
       State (selectedProject s') (isModalOpen s') false (mounted s')
             (onKeyDown s') (effectRuns s') (timers s') (document s')
  else s.

Definition run (t : task) (s : state) : state :=
  match t with ClearSelectedProject => setSelectedProject None s end.

(** Every timer due by [limit] fires, in order. The callbacks set no timers,
    so the queue's length bounds the number of firings. *)
Fixpoint drain (fuel limit : nat) (s : state) : state :=
  match fuel with
  | 0 => s
  | S fuel' =>
      match earliest (pending (timers s)) with
      | Some t =>
          if due t <=? limit
          then drain fuel' limit
                     (commit (run (callback t) (with_timers (fired t (timers s)) s)))
          else s
      | None => s
      end
  end.

Definition wait (dt : nat) (s : state) : state :=
  let limit := now (timers s) + dt in
  let s' := drain (length (pending (timers s))) limit s in
  with_timers (Loop (Nat.max (now (timers s')) limit) (nextHandle (timers s'))
                    (pending (timers s'))) s'.

(** The installed listeners run one after the other. *)
Definition dispatchEscape (s : state) : state :=
  fold_left (fun s l => match l with
                        | OnKeyDown _ => handleCloseModal s
                        | Foreign _ => s
                        end)
            (keydown (document s)) s.

(** [Home] leaves the page: the cleanup runs and the dialog, if there is
    one, is removed with the rest. *)
Definition unmount (s : state) : state :=
  let s' := cleanup s in
  let d := document s' in
  State (selectedProject s') (isModalOpen s') (dirty s') false None
        (effectRuns s') (timers s')
        (Page (bodyStyle d) (keydown d) (blur (activeElement d))).

Definition step (e : event) (s : state) : state :=
  match e with
  | Click p => commit (handleProjectClick p s)
  | CloseModal => commit (handleCloseModal s)
  | KeyEscape => commit (dispatchEscape s)
  | Wait dt => wait dt s
  | Unmount => if mounted s then unmount s else s
  end.

(** First render over a page with some style on its body and some keydown
    listeners of others. *)
Definition mount (style : gmap string string) (others : list nat) : state :=
  effect (State None false false true None 0 start
                (Page style (map Foreign others) Elsewhere)).

Definition run_events (es : list event) (s : state) : state :=
  fold_left (fun s e => step e s) es s.

Inductive reachable (style : gmap string string) (others : list nat)
  : state -> Prop :=
| reach_mount : reachable style others (mount style others)
| reach_step e s :
    reachable style others s -> reachable style others (step e s).

Definition overflow (s : state) : option string :=
  bodyStyle (document s) !! "overflow".

Definition clock (s : state) : nat := now (timers s).

(** The first two of [featuredProjects]. *)
Definition terracotta : Project :=
  {| id := 1; title := "Terracotta.ai"; description := "Launching soon...";
     fullDescription :=
       Some "Optimized nutritional planning for every busy mom out there";
     technologies := ["React"; "Node.js"; "PostgreSQL"; "Stripe"; "Docker"];
     features := Some ["Sign-in/roles"; "Stripe webhooks"; "Inventory updates"];
     challenges :=
       Some "Keeping state tidy across checkout and webhooks. Used optimistic updates and a small event log.";
     demoUrl := Some "https://demo.example.com";
     githubUrl := Some "https://github.com/yourusername/project1";
     image := None |}.

Definition mlLab : Project :=
  {| id := 2; title := "Vanderbilt Machine Learning & AI Lab";
     description :=
       "Research with Prof. Kong at the Vanderbilt Machine Learning Lab";
     fullDescription := Some "Researching deep learning";
     technologies := ["Next.js"; "TypeScript"; "Prisma"; "Socket.io"; "PostgreSQL"];
     features := Some ["Live editing"; "Filters"; "File uploads"];
     challenges :=
       Some "Avoiding sync weirdness during concurrent edits — used OT-style reconciliation.";
     demoUrl := Some "https://demo.example.com";
     githubUrl := Some "https://github.com/yourusername/project2";
     image := None |}.

(** *** What holds in every reachable state *)
Section Frame.
Variable style : gmap string string.
Variable others : list nat.

Definition is_foreign (l : listener) : bool :=
  match l with Foreign _ => true | OnKeyDown _ => false end.

(** The properties of the body's style that an assignment to
    [style.overflow] writes. *)
Definition scroll_property (k : string) : Prop :=
  k = "overflow" \/ k = "overflow-x" \/ k = "overflow-y".

(** What the handlers never touch: the page apart from the effect's own
    writes. *)
Definition framed (s : state) : Prop :=
  (forall k, ~ scroll_property k -> bodyStyle (document s) !! k = style !! k)
  /\ exists own : list listener,
       keydown (document s) = (map Foreign others ++ own)%list
       /\ (own = [] \/ exists r, onKeyDown s = Some r /\ own = [OnKeyDown r]).

Record inv (s : state) : Prop := Inv {
  inv_clean : dirty s = false;
  inv_overflow :
    overflow s = Some (if mounted s && isModalOpen s then "hidden" else "unset");
  inv_longhands :
    bodyStyle (document s) !! "overflow-x" = overflow s
    /\ bodyStyle (document s) !! "overflow-y" = overflow s;
  inv_frame :
    forall k, ~ scroll_property k -> bodyStyle (document s) !! k = style !! k;
  inv_focus :
    activeElement (document s) = CloseButton ->
    mounted s = true /\ render s <> None;
  inv_listener :
    mounted s = true ->
    exists r, onKeyDown s = Some r
              /\ keydown (document s)
                 = (map Foreign others
                    ++ (if isModalOpen s then [OnKeyDown r] else []))%list;
  inv_unmounted :
    mounted s = false -> keydown (document s) = map Foreign others
}.
End Frame.

(** The page apart from the scroll lock. *)
Definition apart_from_scroll (s : state)
  : gmap string string * list listener * element :=
  (delete "overflow"
          (delete "overflow-x" (delete "overflow-y" (bodyStyle (document s)))),
   keydown (document s), activeElement (document s)).

(** The event [e] touches nothing of the page but the scroll lock. *)
Definition touches_only_scroll (e : event) (s : state) : Prop :=
  apart_from_scroll (step e s) = apart_from_scroll s.

Definition own_listeners (s : state) : list listener :=
  List.filter (fun l => negb (is_foreign l)) (keydown (document s)).

(** The invariant of the specification's [ModalState]. *)
Definition modal_invariant (s : state) : Prop :=
  isModalOpen s = true -> selectedProject s <> None.

(** A card is clicked, the modal is closed, and 100 ms later another card
    is clicked. *)
Definition reopened : state :=
  run_events [Click terracotta; CloseModal; Wait 100; Click mlLab]
             (mount ∅ []).

(** *** [ProjectCard] *)

Record Card := {
  cardHero : string + string;     (* <img src=...> or title.charAt(0) *)
  cardTitle : string;
  cardText : string;
  chips : list string;            (* technologies.slice(0, 3) *)
  more : option nat               (* the chip "+N" *)
}.

Definition ProjectCard (project : Project) : Card :=
  {| cardHero := match truthy (image project) with
                 | Some src => inl src
                 | None => inr (substring 0 1 (title project))
                 end;
     cardTitle := title project;
     cardText := description project;
     chips := take 3 (technologies project);
     more := if 3 <? length (technologies project)
             then Some (length (technologies project) - 3)
             else None |}.

(** States reached when no card is clicked while a close timer is still
    pending. *)
Inductive calm (style : gmap string string) (others : list nat)
  : state -> Prop :=
| calm_mount : calm style others (mount style others)
| calm_click p s :
    calm style others s -> pending (timers s) = [] ->
    calm style others (step (Click p) s)
| calm_close s : calm style others s -> calm style others (step CloseModal s)
| calm_escape s : calm style others s -> calm style others (step KeyEscape s)
| calm_wait dt s : calm style others s -> calm style others (step (Wait dt) s)
| calm_unmount s : calm style others s -> calm style others (step Unmount s).

(** What a render of [Home] shows of the modal's state. *)
Definition view (s : state) : option Project * bool * page :=
  (selectedProject s, isModalOpen s, document s).

End Modal.

(** ** [Button] *)
Module Button.

Inductive Variant := primary | outline.

Section ButtonComponent.
Context {Children Rest : Type}.

Record ButtonProps := {
  children : Children;
  variant : option Variant;       (* variant = "primary" *)
  className : option string;      (* className = "" *)
  href : option string;
  external : option bool;         (* external = false *)
  buttonProps : Rest              (* ...buttonProps *)
}.

Inductive element :=
| a (href className : string) (target rel : option string) (children : Children)
| Link (href className : string) (children : Children)
| button (className : string) (rest : Rest) (children : Children).

Definition base : string :=
  "inline-flex items-center justify-center px-6 py-3 rounded-lg font-medium transition-all duration-300 ease-out focus:outline-none focus:ring-2 focus:ring-offset-2".

Definition styles (v : Variant) : string :=
  match v with
  | primary =>
      "bg-blue-600 hover:bg-blue-700 text-white hover:shadow-lg hover:scale-[1.02] focus:ring-blue-500"
  | outline =>
      "border-2 border-gray-300 hover:border-gray-400 text-gray-700 hover:text-gray-900 bg-white/80 hover:scale-[1.02] focus:ring-gray-500"
  end.

Definition startsWith (s p : string) : bool := String.prefix p s.

Definition isSpecial (h : string) : bool :=
  startsWith h "#" || startsWith h "mailto:" || startsWith h "http".

Definition Button (props : ButtonProps) : element :=
  let cls := base +:+ " " +:+ styles (default primary (variant props))
             +:+ " " +:+ default "" (className props) in
  let ext := default false (external props) in
  match href props with
  | Some h =>
      if String.eqb h "" then button cls (buttonProps props) (children props)
      else if isSpecial h
           then a h cls (if ext then Some "_blank" else None)
                  (if ext then Some "noopener noreferrer" else None)
                  (children props)
           else Link h cls (children props)
  | None => button cls (buttonProps props) (children props)
  end.

Definition target_of (e : element) : option string :=
  match e with a _ _ t _ _ => t | _ => None end.

Definition rel_of (e : element) : option string :=
  match e with a _ _ _ r _ => r | _ => None end.

Definition rest_of (e : element) : option Rest :=
  match e with button _ r _ => Some r | _ => None end.

End ButtonComponent.
Arguments ButtonProps : clear implicits.
Arguments element : clear implicits.
End Button.

(** ** JavaScript strings

    The texts of the page are ASCII, so a [string] of bytes is the sequence
    of UTF-16 code units, [String.length] is [.length] and
    [substring 0 k s] is [s.substring(0, k)] for [0 <= k]. *)
Module JsString.

Lemma length_substring0 (k : nat) (s : string) :
  String.length (substring 0 k s) = Nat.min k (String.length s).
Proof.
  revert k; induction s as [|c s IH]; intros [|k]; simpl; auto.
Qed.

Lemma substring0_all (k : nat) (s : string) :
  String.length s <= k -> substring 0 k s = s.
Proof.
  revert k; induction s as [|c s IH]; intros [|k] Hk; simpl in *;
    try reflexivity; try lia.
  f_equal. apply IH. lia.
Qed.

Lemma substring0_substring0 (j k : nat) (s : string) :
  substring 0 j (substring 0 k s) = substring 0 (Nat.min j k) s.
Proof.
  revert j k; induction s as [|c s IH]; intros [|j] [|k]; simpl; auto.
  f_equal. apply IH.
Qed.

Lemma prefix_substring0 (k : nat) (s : string) :
  String.prefix (substring 0 k s) s = true.
Proof.
  revert k; induction s as [|c s IH]; intros [|k]; simpl; auto.
  destruct (ascii_dec c c) as [_|Hne]; [apply IH | congruence].
Qed.

Lemma prefix_empty (s : string) : String.prefix "" s = true.
Proof. destruct s; reflexivity. Qed.

Lemma prefix_refl (s : string) : String.prefix s s = true.
Proof.
  induction s as [|c s IH]; simpl; auto.
  destruct (ascii_dec c c) as [_|Hne]; [apply IH | congruence].
Qed.

Lemma prefix_is_substring0 (d s : string) :
  String.prefix d s = true -> d = substring 0 (String.length d) s.
Proof.
  intros H. apply prefix_correct in H. symmetry. exact H.
Qed.

Lemma prefix_length (d s : string) :
  String.prefix d s = true -> String.length d <= String.length s.
Proof.
  intros H. apply prefix_is_substring0 in H.
  assert (L := length_substring0 (String.length d) s).
  rewrite <- H in L. lia.
Qed.

(** Deleting the last character of a prefix [d] of [s] leaves a prefix. *)
Lemma shrink_prefix (d s : string) :
  String.prefix d s = true ->
  String.prefix (substring 0 (String.length d - 1) d) s = true.
Proof.
  intros H. assert (Hd := prefix_is_substring0 _ _ H).
  rewrite Hd at 2. rewrite substring0_substring0.
  apply prefix_substring0.
Qed.

End JsString.

(** ** The timer queue *)
Module EventLoopFacts.
Import EventLoop.
Section Queue.
Context {C : Type}.
Implicit Types (t u : timer C) (ts : list (timer C)).

Lemma earliest_None ts : earliest ts = None -> ts = [].
Proof.
  destruct ts as [|t ts]; [reflexivity|]. simpl.
  destruct (earliest ts) as [u|]; [destruct (due u <? due t)|]; discriminate.
Qed.

Lemma earliest_In ts t : earliest ts = Some t -> In t ts.
Proof.
  revert t; induction ts as [|a ts IH]; intros t; simpl; [discriminate|].
  destruct (earliest ts) as [u|].
  - destruct (due u <? due a); intros [= <-]; [right; apply IH|left]; reflexivity.
  - intros [= <-]. left. reflexivity.
Qed.

Lemma earliest_le ts t u : earliest ts = Some t -> In u ts -> due t <= due u.
Proof.
  revert t; induction ts as [|a ts IH]; intros t; simpl; [discriminate|].
  destruct (earliest ts) as [m|] eqn:E.
  - destruct (Nat.ltb_spec (due m) (due a)); intros [= <-] [<- | Hu];
      try lia; specialize (IH m eq_refl Hu); lia.
  - intros [= <-] [<- | Hu]; [lia|].
    apply earliest_None in E. subst ts. destruct Hu.
Qed.

(** A timer that fires leaves the queue shorter. *)
Lemma fired_shorter t (l : loop C) :
  In t (pending l) -> length (pending (fired t l)) < length (pending l).
Proof.
  simpl. induction (pending l) as [|a ts IH]; simpl; [intros []|].
  intros [-> | Hin].
  - rewrite Nat.eqb_refl. simpl.
    assert (H := List.filter_length_le
                   (fun u => negb (handle u =? handle t)) ts). lia.
  - specialize (IH Hin).
    destruct (negb (handle a =? handle t)); simpl; lia.
Qed.

End Queue.
End EventLoopFacts.

(** ** [TypeWriterText]: the loop *)
Module TypeWriterSpec.
Import EventLoop TypeWriter.

Section TickInvariant.
Variable props : TypeWriterProps.

Local Abbreviation ticking_due := (TypeWriter.ticking_due props).
Local Abbreviation pausing_due := (TypeWriter.pausing_due props).
Local Abbreviation ticking := (TypeWriter.ticking props).
Local Abbreviation pausing := (TypeWriter.pausing props).
Local Abbreviation shows_prefix := (TypeWriter.shows_prefix props).
Local Abbreviation live := (TypeWriter.live props).
Local Abbreviation live_mounted := (TypeWriter.live_mounted props).
Local Abbreviation live_handle := (TypeWriter.live_handle props).
Local Abbreviation live_text := (TypeWriter.live_text props).
Local Abbreviation live_queue := (TypeWriter.live_queue props).
Local Abbreviation inv := (TypeWriter.inv props).
Local Abbreviation deleting_after := (TypeWriter.deleting_after props).

Lemma eqb_length_neq (a b : string) :
  String.length a <> String.length b -> String.eqb a b = false.
Proof. intros H. apply String.eqb_neq. intros ->. apply H. reflexivity. Qed.

Lemma fire_single (s : state) (h d : nat) (cb : closure) :
  pending (timers s) = [Timer h d cb] ->
  fire props s =
    let s0 := with_timers
                (Loop (Nat.max (clock s) d) (nextHandle (timers s)) []) s in
    match run props cb s0 with
    | inl e =>
        State (displayText s0) (currentIndex s0) (isDeleting s0)
              (delayTimer s0) (timeout s0) (mounted s0)
              (e :: uncaught s0) (timers s0)
    | inr s1 => commit props s0 s1
    end.
Proof.
  unfold fire, fired, clock. intros ->. simpl. rewrite Nat.eqb_refl.
  reflexivity.
Qed.

(** The cleanup cancels whatever is pending. *)
Lemma cleanup_clears (s : state) :
  ticking s \/ pausing s -> pending (timers (cleanup s)) = [].
Proof.
  destruct s as [dt ix dl dly to m u [nw nh pd]].
  unfold ticking, pausing, ticking_due, pausing_due, tick_closure, cleanup,
    truthy; simpl.
  intros [[d (h & -> & -> & _)] | [d (h & -> & -> & Hh & _)]].
  - destruct dly as [k|]; [destruct (negb (k =? 0))|];
      unfold clearTimeout; simpl; rewrite Nat.eqb_refl; reflexivity.
  - destruct (Nat.eqb_spec h 0); [lia|].
    destruct to as [k|]; unfold clearTimeout; simpl.
    + destruct (h =? k); simpl; [reflexivity|].
      rewrite Nat.eqb_refl. reflexivity.
    + rewrite Nat.eqb_refl. reflexivity.
Qed.

Lemma cleanup_fields (s : state) :
  displayText (cleanup s) = displayText s
  /\ currentIndex (cleanup s) = currentIndex s
  /\ isDeleting (cleanup s) = isDeleting s
  /\ mounted (cleanup s) = mounted s
  /\ clock (cleanup s) = clock s
  /\ nextHandle (timers (cleanup s)) = nextHandle (timers s).
Proof.
  destruct s as [dt ix dl dly to m u [nw nh pd]].
  unfold cleanup, clock; simpl.
  destruct to, dly; try destruct (truthy _); simpl; auto 10.
Qed.

(** The effect body on an empty queue leaves exactly its own tick. *)
Lemma effect_ticking (s : state) :
  pending (timers s) = [] ->
  ticking_due (effect props s)
    (clock s + if isDeleting s then delete_speed props else type_speed props).
Proof.
  destruct s as [dt ix dl dly to m u [nw nh pd]]; simpl. intros ->.
  exists nh. unfold effect, tick_closure, clock; simpl.
  repeat split; lia.
Qed.

Lemma effect_fields (s : state) :
  displayText (effect props s) = displayText s
  /\ currentIndex (effect props s) = currentIndex s
  /\ isDeleting (effect props s) = isDeleting s
  /\ mounted (effect props s) = mounted s
  /\ clock (effect props s) = clock s
  /\ nextHandle (timers (effect props s)) = S (nextHandle (timers s)).
Proof. destruct s as [dt ix dl dly to m u [nw nh pd]]. simpl. auto 10. Qed.

Lemma cleanup_nil (s : state) :
  pending (timers s) = [] -> pending (timers (cleanup s)) = [].
Proof.
  destruct s as [dt ix dl dly to m u [nw nh pd]]. simpl. intros ->.
  unfold cleanup; simpl.
  destruct to, dly; try destruct (truthy _); reflexivity.
Qed.

(** Cleanup followed by the effect, as a re-render does it. *)
Lemma rerun_live (s : state) (c speed : nat) (dl : bool) (dt : string)
      (ix : index) :
  mounted s = true -> shows_prefix s ->
  pending (timers (cleanup s)) = [] ->
  clock s = c -> isDeleting s = dl -> currentIndex s = ix ->
  displayText s = dt ->
  speed = (if dl then delete_speed props else type_speed props) ->
  let s' := effect props (cleanup s) in
  live s' /\ ticking_due s' (c + speed) /\ clock s' = c
  /\ isDeleting s' = dl /\ currentIndex s' = ix /\ displayText s' = dt.
Proof.
  intros Hm Ht Hq Hc Hdl Hix Hdt -> s'.
  destruct (cleanup_fields s) as (C1 & C2 & C3 & C4 & C5 & C6).
  destruct (effect_fields (cleanup s)) as (E1 & E2 & E3 & E4 & E5 & E6).
  assert (T := effect_ticking (cleanup s) Hq).
  fold s' in E1, E2, E3, E4, E5, E6, T.
  rewrite C3, C5, Hc, Hdl in T.
  assert (Hd : displayText s' = displayText s) by congruence.
  assert (Hi : currentIndex s' = currentIndex s) by congruence.
  split; [|repeat split; congruence || exact T].
  constructor.
  - congruence.
  - lia.
  - destruct Ht as (n & txt & H1 & H2 & H3).
    exists n, txt. rewrite Hd, Hi. auto.
  - left. eexists; exact T.
Qed.

Lemma commit_changed (s0 s1 : state) :
  mounted s1 = true -> deps_changed s0 s1 = true ->
  commit props s0 s1 = effect props (cleanup s1).
Proof. unfold commit. intros -> ->. reflexivity. Qed.

Lemma commit_same (s0 s1 : state) :
  deps_changed s0 s1 = false -> commit props s0 s1 = s1.
Proof. unfold commit. intros ->. rewrite andb_false_r. reflexivity. Qed.

(** *** One firing, case by case *)

(** A tick while typing, some characters still missing. *)
Lemma fire_typing (s : state) (d n : nat) (txt : string) :
  live s -> ticking_due s d -> isDeleting s = false ->
  currentIndex s = Idx n -> texts props !! n = Some txt ->
  String.length (displayText s) < String.length txt ->
  let s' := fire props s in
  live s' /\ ticking_due s' (d + type_speed props) /\ clock s' = d
  /\ isDeleting s' = false /\ currentIndex s' = Idx n
  /\ displayText s' = substring 0 (String.length (displayText s) + 1) txt.
Proof.
  intros [Hm Hh _ _] (h & Hq & Hto & Hle) Hdel Hix Htxt Hlt s'.
  subst s'. rewrite (fire_single s h d _ Hq).
  destruct s as [dt ix dl dly to m u [nw nh pd]].
  unfold tick_closure, clock in *; simpl in *; subst.
  cbn [negb text_at]. rewrite Htxt. destruct (Nat.ltb_spec (String.length dt) (String.length txt)); [|lia].
  unfold setDisplayText; simpl.
  rewrite commit_changed; [| reflexivity |].
  2:{ unfold deps_changed; simpl. rewrite eqb_length_neq; [reflexivity|].
      rewrite JsString.length_substring0. lia. }
  apply rerun_live; try reflexivity.
  - exists n, txt. simpl. repeat split; auto. apply JsString.prefix_substring0.
  - apply cleanup_nil. reflexivity.
  - unfold clock; simpl. lia.
Qed.

(** A tick while typing, the text complete: the pause timer is set and
    nothing re-renders. *)
Lemma fire_full (s : state) (d n : nat) (txt : string) :
  live s -> ticking_due s d -> isDeleting s = false ->
  currentIndex s = Idx n -> texts props !! n = Some txt ->
  String.length txt <= String.length (displayText s) ->
  let s' := fire props s in
  live s' /\ pausing_due s' (d + delay_between props) /\ clock s' = d
  /\ isDeleting s' = false /\ currentIndex s' = Idx n
  /\ displayText s' = displayText s.
Proof.
  intros [Hm Hh Hp _] (h & Hq & Hto & Hle) Hdel Hix Htxt Hge s'.
  assert (Hfull : displayText s = txt).
  { destruct Hp as (n' & txt' & H1 & H2 & H3).
    assert (n' = n) by congruence. subst n'.
    assert (txt' = txt) by congruence. subst txt'.
    rewrite (JsString.prefix_is_substring0 _ _ H3).
    apply JsString.substring0_all. exact Hge. }
  subst s'. rewrite (fire_single s h d _ Hq).
  destruct s as [dt ix dl dly to m u [nw nh pd]].
  unfold tick_closure, clock in *; simpl in *; subst.
  cbn [negb text_at]. rewrite Htxt. destruct (Nat.ltb_spec (String.length txt) (String.length txt)); [lia|].
  simpl. rewrite commit_same.
  2:{ unfold deps_changed; simpl.
      rewrite String.eqb_refl, Nat.eqb_refl. reflexivity. }
  unfold clock; simpl. rewrite Nat.max_r by lia.
  match goal with |- live ?x /\ _ => set (s1 := x) end.
  assert (P : pausing_due s1 (d + delay_between props)).
  { exists nh. unfold clock. simpl. rewrite Htxt. repeat split; auto; lia. }
  split; [constructor|repeat split; auto].
  - reflexivity.
  - simpl. lia.
  - exists n, txt. simpl. repeat split; auto. apply JsString.prefix_refl.
  - right. eexists; exact P.
Qed.

(** The pause timer fires. *)
Lemma fire_pause (s : state) (d : nat) :
  live s -> pausing_due s d ->
  let s' := fire props s in
  live s' /\ ticking_due s' (d + delete_speed props) /\ clock s' = d
  /\ isDeleting s' = true /\ currentIndex s' = currentIndex s
  /\ displayText s' = displayText s.
Proof.
  intros [Hm Hh Hp _] (h & Hq & Hdl & Hpos & Hle & Hdel & Hfull) s'.
  subst s'. rewrite (fire_single s h d _ Hq).
  destruct s as [dt ix dl dly to m u [nw nh pd]].
  unfold clock in *; simpl in *; subst.
  unfold setIsDeleting; simpl.
  rewrite commit_changed; [| reflexivity |].
  2:{ unfold deps_changed; simpl. rewrite andb_false_r. reflexivity. }
  apply rerun_live; try reflexivity.
  - exact Hp.
  - apply cleanup_nil. reflexivity.
  - unfold clock; simpl. lia.
Qed.

(** A tick while deleting, some characters left. *)
Lemma fire_deleting (s : state) (d : nat) :
  live s -> ticking_due s d -> isDeleting s = true ->
  0 < String.length (displayText s) ->
  let s' := fire props s in
  live s' /\ ticking_due s' (d + delete_speed props) /\ clock s' = d
  /\ isDeleting s' = true /\ currentIndex s' = currentIndex s
  /\ displayText s'
     = substring 0 (String.length (displayText s) - 1) (displayText s).
Proof.
  intros [Hm Hh Hp _] (h & Hq & Hto & Hle) Hdel Hpos s'.
  subst s'. rewrite (fire_single s h d _ Hq).
  destruct s as [dt ix dl dly to m u [nw nh pd]].
  unfold tick_closure, clock in *; simpl in *; subst.
  destruct (Nat.ltb_spec 0 (String.length dt)); [|lia].
  unfold setDisplayText; simpl.
  rewrite commit_changed; [| reflexivity |].
  2:{ unfold deps_changed; simpl. rewrite eqb_length_neq; [reflexivity|].
      rewrite JsString.length_substring0. lia. }
  apply rerun_live; try reflexivity.
  - destruct Hp as (n & txt & H1 & H2 & H3). simpl in *.
    exists n, txt. simpl. repeat split; auto.
    apply JsString.shrink_prefix. exact H3.
  - apply cleanup_nil. reflexivity.
  - unfold clock; simpl. lia.
Qed.

(** A tick while deleting, nothing left: on to the next text. *)
Lemma fire_next (s : state) (d n : nat) :
  live s -> ticking_due s d -> isDeleting s = true ->
  currentIndex s = Idx n -> String.length (displayText s) = 0 ->
  let s' := fire props s in
  live s' /\ ticking_due s' (d + type_speed props) /\ clock s' = d
  /\ isDeleting s' = false
  /\ currentIndex s' = Idx ((n + 1) mod length (texts props))
  /\ displayText s' = displayText s.
Proof.
  intros [Hm Hh Hp _] (h & Hq & Hto & Hle) Hdel Hix Hlen s'.
  subst s'. rewrite (fire_single s h d _ Hq).
  destruct s as [dt ix dl dly to m u [nw nh pd]].
  unfold tick_closure, clock in *; simpl in *; subst.
  rewrite Hlen. simpl.
  unfold setIsDeleting, setCurrentIndex; simpl.
  destruct Hp as (n' & txt & H1 & H2 & H3). simpl in *.
  assert (n' = n) by congruence. subst n'.
  assert (Hn : n < length (texts props)) by (eapply lookup_lt_Some; eauto).
  destruct (Nat.eqb_spec (length (texts props)) 0); [lia|].
  rewrite commit_changed; [| reflexivity |].
  2:{ unfold deps_changed; simpl. rewrite andb_false_r. reflexivity. }
  apply rerun_live; try reflexivity.
  - assert (Hm' : (n + 1) mod length (texts props) < length (texts props))
      by (apply Nat.mod_upper_bound; lia).
    destruct (lookup_lt_is_Some_2 _ _ Hm') as [txt' Ht'].
    exists ((n + 1) mod length (texts props)), txt'. simpl.
    repeat split; auto.
    destruct dt; [apply JsString.prefix_empty | discriminate].
  - apply cleanup_nil. reflexivity.
  - unfold clock; simpl. lia.
Qed.

(** *** The invariants hold in every reachable state *)

Lemma tidy_rerun (s : state) :
  tidy s -> mounted s = true -> tidy (effect props (cleanup s)).
Proof.
  destruct s as [dt ix dl dly to m u [nw nh pd]].
  unfold tidy, cleanup, effect, truthy; simpl.
  intros [Hh [-> | (_ & h & d & cb & -> & Hc)]] ->.
  - split; [lia|]. right. split; [reflexivity|].
    destruct to, dly; try destruct (negb _); simpl; eauto 10.
  - split; [lia|]. right. split; [reflexivity|].
    destruct Hc as [-> | [-> Hpos]].
    + destruct dly as [k|]; [destruct (negb (k =? 0))|];
        unfold clearTimeout; simpl; rewrite Nat.eqb_refl; simpl; eauto 10.
    + destruct (Nat.eqb_spec h 0); [lia|].
      destruct to as [k|]; unfold clearTimeout; simpl;
        [destruct (h =? k); simpl|]; rewrite ?Nat.eqb_refl; simpl; eauto 10.
Qed.

Lemma tidy_commit (s0 s1 : state) :
  tidy s1 -> tidy (commit props s0 s1).
Proof.
  intros H. unfold commit.
  destruct (mounted s1) eqn:Hm; simpl; [|exact H].
  destruct (deps_changed s0 s1); [|exact H].
  apply tidy_rerun; assumption.
Qed.

Lemma tidy_fire (s : state) : tidy s -> tidy (fire props s).
Proof.
  intros H.
  assert (H' := H). destruct H' as [Hh [Hq | (Hm & h & d & cb & Hq & Hc)]].
  { unfold fire. rewrite Hq. exact H. }
  rewrite (fire_single s h d cb Hq).
  destruct s as [dt ix dl dly to m u [nw nh pd]]. simpl in *. subst m.
  assert (T0 : forall dt' ix' dl' u',
             tidy (State dt' ix' dl' dly to true u'
                         (Loop (Nat.max nw d) nh []))).
  { intros. split; simpl; auto. }
  destruct cb as [cd cdel [ctxt|] | ]; simpl.
  - destruct cdel; simpl.
    + destruct (0 <? String.length cd); apply tidy_commit; apply T0.
    + destruct (String.length cd <? String.length ctxt).
      * apply tidy_commit. apply T0.
      * apply tidy_commit. split; simpl; [lia|].
        right. split; [reflexivity|]. exists nh, (Nat.max nw d + delay_between props), StartDeleting.
        split; [reflexivity|]. right. split; [reflexivity | lia].
  - destruct cdel; simpl.
    + destruct (0 <? String.length cd); apply tidy_commit; apply T0.
    + apply T0.
  - apply tidy_commit. apply T0.
Qed.

Lemma tidy_step (e : event) (s : state) : tidy s -> tidy (step props e s).
Proof.
  intros H. destruct e as [|t| |]; simpl.
  - apply tidy_fire, H.
  - destruct H as [Hh Hq]. unfold idle.
    destruct s as [dt ix dl dly to m u [nw nh pd]]; simpl in *.
    destruct (earliest pd); split; simpl; auto.
  - destruct (mounted s) eqn:Hm; [apply tidy_rerun|]; assumption.
  - destruct (mounted s) eqn:Hm; [|assumption].
    assert (T := tidy_rerun s H Hm).
    destruct (effect_fields (cleanup s)) as (_ & _ & _ & _ & _ & E).
    destruct T as [T1 _].
    assert (Hc : pending (timers (cleanup s)) = []).
    { destruct s as [dt ix dl dly to m u [nw nh pd]].
      destruct H as [_ [Hq | (_ & h & d & cb & Hq & Hc)]]; simpl in Hq; subst pd.
      - apply cleanup_nil. reflexivity.
      - unfold cleanup, truthy; simpl in *.
        destruct Hc as [-> | [-> Hpos]].
        + destruct dly as [k|]; [destruct (negb (k =? 0))|];
            unfold clearTimeout; simpl; rewrite Nat.eqb_refl; reflexivity.
        + destruct (Nat.eqb_spec h 0); [lia|].
          destruct to as [k|]; unfold clearTimeout; simpl;
            [destruct (h =? k); simpl|]; rewrite ?Nat.eqb_refl; reflexivity. }
    destruct (cleanup_fields s) as (_ & _ & _ & _ & _ & C).
    split; [|left; exact Hc].
    change (0 < nextHandle (timers (cleanup s))). rewrite C. apply H.
Qed.

Lemma tidy_mount : tidy (mount props).
Proof.
  split; simpl; [lia|]. right. split; [reflexivity|]. eauto 10.
Qed.

Lemma reachable_tidy (s : state) : reachable props s -> tidy s.
Proof.
  induction 1 as [|e s _ IH]; [apply tidy_mount | apply tidy_step, IH].
Qed.

(** Unmounting leaves no timer behind. *)
Lemma unmount_clears (s : state) :
  tidy s -> mounted s = true ->
  pending (timers (step props Unmount s)) = []
  /\ mounted (step props Unmount s) = false.
Proof.
  intros H Hm. assert (T := tidy_step Unmount s H).
  simpl in *. rewrite Hm in *. split; [|reflexivity].
  destruct T as [_ [Hq | (Hm' & _)]]; [exact Hq | discriminate].
Qed.

(** With nothing pending, an unmounted component never changes again. *)
Lemma disposed_step (e : event) (s : state) :
  mounted s = false -> pending (timers s) = [] ->
  let s' := step props e s in
  mounted s' = false /\ pending (timers s') = []
  /\ hooks s' = hooks s /\ uncaught s' = uncaught s.
Proof.
  destruct s as [dt ix dl dly to m u [nw nh pd]]; simpl.
  intros -> ->. destruct e as [|t| |]; simpl; auto.
Qed.

Lemma disposed_run (es : list event) (s : state) :
  mounted s = false -> pending (timers s) = [] ->
  let s' := run_events props es s in
  pending (timers s') = [] /\ hooks s' = hooks s /\ uncaught s' = uncaught s.
Proof.
  revert s; induction es as [|e es IH]; intros s Hm Hq; simpl; auto.
  destruct (disposed_step e s Hm Hq) as (Hm' & Hq' & Hh & Hu).
  destruct (IH _ Hm' Hq') as (I1 & I2 & I3).
  repeat split; congruence.
Qed.

(** One firing from a live state: still live, and the text moved by at
    most one character in the direction of the phase. *)
Lemma live_fire (s : state) :
  live s ->
  let s' := fire props s in
  live s'
  /\ (isDeleting s = false -> len s <= len s' <= len s + 1)
  /\ (isDeleting s = true -> len s' <= len s <= len s' + 1).
Proof.
  intros L s'. subst s'. unfold len.
  destruct (live_queue s L) as [[d T] | [d P]].
  - destruct (live_text s L) as (n & txt & Hix & Htxt & Hpre).
    destruct (isDeleting s) eqn:Hdel.
    + destruct (Nat.eq_dec (String.length (displayText s)) 0) as [Hz | Hnz].
      * destruct (fire_next s d n L T Hdel Hix Hz) as (L' & _ & _ & _ & _ & E).
        rewrite E. split; [exact L'|]; split; intros; try discriminate; lia.
      * destruct (fire_deleting s d L T Hdel) as (L' & _ & _ & _ & _ & E);
          [lia|].
        rewrite E, JsString.length_substring0.
        split; [exact L'|]; split; intros; try discriminate; lia.
    + destruct (Nat.lt_ge_cases (String.length (displayText s))
                                (String.length txt)) as [Hlt | Hge].
      * destruct (fire_typing s d n txt L T Hdel Hix Htxt Hlt)
          as (L' & _ & _ & _ & _ & E).
        rewrite E, JsString.length_substring0.
        split; [exact L'|]; split; intros; try discriminate; lia.
      * destruct (fire_full s d n txt L T Hdel Hix Htxt Hge)
          as (L' & _ & _ & _ & _ & E).
        rewrite E. split; [exact L'|]; split; intros; try discriminate; lia.
  - destruct (fire_pause s d L P) as (L' & _ & _ & _ & _ & E).
    rewrite E. split; [exact L'|]; split; intros; try discriminate; lia.
Qed.

Lemma live_idle (dt : nat) (s : state) :
  live s -> live (with_timers (idle dt (timers s)) s).
Proof.
  intros [Hm Hh Ht Hq].
  destruct s as [d ix dl dly to m u [nw nh pd]].
  unfold ticking, pausing, ticking_due, pausing_due, tick_closure, clock,
    shows_prefix, idle in *; simpl in *.
  destruct Hq as [(due & h & -> & -> & Hle) | (due & h & -> & -> & Hp & Hle & R)];
    simpl; constructor; simpl; auto.
  - left. exists due, h. repeat split; auto. unfold clock; simpl. lia.
  - right. exists due, h. repeat split; try apply R; auto.
    unfold clock; simpl. lia.
Qed.

Lemma shows_prefix_hooks (s s' : state) :
  hooks s' = hooks s -> shows_prefix s -> shows_prefix s'.
Proof.
  unfold hooks, shows_prefix. intros H (n & txt & H1 & H2 & H3).
  exists n, txt. inversion H as [[Hd Hi Hdl Hr]]. rewrite Hd, Hi. auto.
Qed.

Lemma inv_step (e : event) (s : state) : inv s -> inv (step props e s).
Proof.
  intros (Hp & Hl & Hu).
  destruct (mounted s) eqn:Hm.
  - specialize (Hl eq_refl). destruct e as [|dt| |]; cbn [step]; rewrite ?Hm.
    + destruct (live_fire s Hl) as (L' & _).
      split; [apply (live_text _ L')|].
      split; [auto|]. rewrite (live_mounted _ L'). discriminate.
    + assert (L' := live_idle dt s Hl).
      split; [apply (live_text _ L')|].
      split; [auto|]. rewrite (live_mounted _ L'). discriminate.
    + destruct (rerun_live s (clock s)
                  (if isDeleting s then delete_speed props else type_speed props)
                  (isDeleting s) (displayText s) (currentIndex s))
        as (L' & _); auto.
      { apply cleanup_clears, (live_queue _ Hl). }
      split; [apply (live_text _ L')|].
      split; [auto|]. rewrite (live_mounted _ L'). discriminate.
    + destruct (cleanup_fields s) as (C1 & C2 & C3 & _).
      split; [|split; [discriminate|]].
      * destruct Hp as (n & txt & H1 & H2 & H3). exists n, txt.
        change (displayText (unmount s)) with (displayText (cleanup s)).
        change (currentIndex (unmount s)) with (currentIndex (cleanup s)).
        rewrite C1, C2. auto.
      * intros _. apply cleanup_clears, (live_queue _ Hl).
  - specialize (Hu eq_refl).
    destruct (disposed_step e s Hm Hu) as (Hm' & Hq' & Hh & _).
    split; [eapply shows_prefix_hooks; eauto|].
    split; [rewrite Hm'; discriminate | auto].
Qed.

(** *** Phases *)

Lemma phase_ticking (s : state) :
  ticking s -> phase_of s = if isDeleting s then Deleting else Typing.
Proof.
  intros (d & h & Hq & _). unfold phase_of. rewrite Hq.
  destruct (isDeleting s); reflexivity.
Qed.

Lemma phase_pausing (s : state) :
  pausing s -> phase_of s = PausingBeforeDelete.
Proof.
  intros (d & h & Hq & _ & _ & _ & Hdel & _). unfold phase_of.
  rewrite Hq, Hdel. reflexivity.
Qed.

Lemma phase_typing_inv (s : state) :
  live s -> phase_of s = Typing -> ticking s /\ isDeleting s = false.
Proof.
  intros L H. destruct (live_queue s L) as [T | P].
  - split; [exact T|]. rewrite (phase_ticking s T) in H.
    destruct (isDeleting s); [discriminate | reflexivity].
  - rewrite (phase_pausing s P) in H. discriminate.
Qed.

(** *** Runs of ticks *)

(** [k] ticks type the [k] characters that are missing. *)
Lemma typing_run (k : nat) :
  forall (s : state) (d n : nat) (txt : string),
    live s -> ticking_due s d -> isDeleting s = false ->
    currentIndex s = Idx n -> texts props !! n = Some txt ->
    len s + k = String.length txt ->
    let s' := Nat.iter k (fire props) s in
    live s' /\ ticking_due s' (d + k * type_speed props)
    /\ isDeleting s' = false /\ currentIndex s' = Idx n
    /\ displayText s' = txt.
Proof.
  induction k as [|k IH]; intros s d n txt L T Hdel Hix Htxt Hlen.
  - simpl. replace (d + 0) with d by lia.
    split; [exact L|]. do 3 (split; [assumption|]).
    destruct (live_text s L) as (n' & txt' & H1 & H2 & H3).
    assert (n' = n) by congruence. subst n'.
    assert (txt' = txt) by congruence. subst txt'.
    rewrite (JsString.prefix_is_substring0 _ _ H3).
    apply JsString.substring0_all. unfold len in Hlen. lia.
  - rewrite Nat.iter_succ_r.
    destruct (fire_typing s d n txt L T Hdel Hix Htxt)
      as (L' & T' & _ & Hdel' & Hix' & E); [unfold len in Hlen; lia|].
    replace (d + S k * type_speed props)
      with (d + type_speed props + k * type_speed props) by lia.
    apply IH; auto.
    unfold len in *. rewrite E, JsString.length_substring0. lia.
Qed.

(** [k] ticks delete the [k] characters that are shown. *)
Lemma deleting_run (k : nat) :
  forall (s : state) (d : nat),
    live s -> ticking_due s d -> isDeleting s = true -> len s = k ->
    let s' := Nat.iter k (fire props) s in
    live s' /\ ticking_due s' (d + k * delete_speed props)
    /\ isDeleting s' = true /\ currentIndex s' = currentIndex s
    /\ displayText s' = "".
Proof.
  induction k as [|k IH]; intros s d L T Hdel Hlen.
  - simpl. replace (d + 0) with d by lia.
    split; [exact L|]. do 2 (split; [assumption|]). split; [reflexivity|].
    unfold len in Hlen. destruct (displayText s); [reflexivity | discriminate].
  - rewrite Nat.iter_succ_r.
    destruct (fire_deleting s d L T Hdel)
      as (L' & T' & _ & Hdel' & Hix' & E); [unfold len in Hlen; lia|].
    replace (d + S k * delete_speed props)
      with (d + delete_speed props + k * delete_speed props) by lia.
    rewrite <- Hix'. apply IH; auto.
    unfold len in *. rewrite E, JsString.length_substring0. lia.
Qed.

(** Events other than a firing leave the text alone. *)
Lemma step_text (e : event) (s : state) :
  e <> Fire -> displayText (step props e s) = displayText s.
Proof.
  destruct (cleanup_fields s) as (C1 & _).
  destruct (effect_fields (cleanup s)) as (E1 & _).
  destruct e as [|dt| |]; intros He; cbn [step]; try congruence.
  - reflexivity.
  - destruct (mounted s); congruence.
  - destruct (mounted s); [exact C1 | reflexivity].
Qed.

(** C3. From a well-formed state in phase Typing at a valid index [i]
    with nothing shown, the next [length txt] ticks type [txt], one more
    tick starts the pause, the pause timer sets the phase to Deleting with
    [txt] still shown, and after [2 * length txt + 3] timer firings in all
    the state is Typing again at index [(i + 1) mod length texts] with
    nothing shown. *)
Theorem full_cycle_advances_index (s : state) (i : nat) (txt : string) :
  live s -> phase_of s = Typing ->
  currentIndex s = Idx i -> displayText s = "" ->
  texts props !! i = Some txt ->
  let n := String.length txt in
  displayText (Nat.iter n (fire props) s) = txt
  /\ phase_of (Nat.iter (n + 1) (fire props) s) = PausingBeforeDelete
  /\ (phase_of (Nat.iter (n + 2) (fire props) s) = Deleting
      /\ displayText (Nat.iter (n + 2) (fire props) s) = txt)
  /\ (phase_of (Nat.iter (2 * n + 3) (fire props) s) = Typing
      /\ currentIndex (Nat.iter (2 * n + 3) (fire props) s)
         = Idx ((i + 1) mod length (texts props))
      /\ displayText (Nat.iter (2 * n + 3) (fire props) s) = "").
Proof.
  intros L Hph Hix Hd Htxt n.
  destruct (phase_typing_inv s L Hph) as [[d T] Hdel].
  destruct (typing_run n s d i txt L T Hdel Hix Htxt)
    as (L1 & T1 & Hdel1 & Hix1 & E1).
  { unfold len. rewrite Hd. reflexivity. }
  set (s1 := Nat.iter n (fire props) s) in *.
  destruct (fire_full s1 _ i txt L1 T1 Hdel1 Hix1 Htxt)
    as (L2 & P2 & _ & Hdel2 & Hix2 & E2); [rewrite E1; lia|].
  set (s2 := fire props s1) in *.
  destruct (fire_pause s2 _ L2 P2) as (L3 & T3 & _ & Hdel3 & Hix3 & E3).
  set (s3 := fire props s2) in *.
  destruct (deleting_run n s3 _ L3 T3 Hdel3)
    as (L4 & T4 & Hdel4 & Hix4 & E4).
  { unfold len. rewrite E3, E2, E1. reflexivity. }
  set (s4 := Nat.iter n (fire props) s3) in *.
  destruct (fire_next s4 _ i L4 T4 Hdel4) as (L5 & T5 & _ & Hdel5 & Hix5 & E5).
  { congruence. }
  { rewrite E4. reflexivity. }
  replace (n + 1) with (1 + n) by lia.
  replace (n + 2) with (2 + n) by lia.
  replace (2 * n + 3) with (1 + (n + (2 + n))) by lia.
  rewrite !Nat.iter_add. cbn [Nat.iter nat_rect].
  fold s1. fold s2. fold s3. fold s4.
  split; [exact E1|].
  split; [apply phase_pausing; eexists; exact P2|].
  split; [split; [|congruence]|].
  { rewrite (phase_ticking s3) by (eexists; exact T3). rewrite Hdel3. reflexivity. }
  split; [|split; [exact Hix5 | congruence]].
  rewrite (phase_ticking (fire props s4)) by (eexists; exact T5).
  rewrite Hdel5. reflexivity.
Qed.

(** C5, as the code has it. Once the full text is shown (the tick of that
    render has just been set, [typeSpeed] ahead), that tick fires first
    and only then starts the pause timer: the phase is
    PausingBeforeDelete from [typeSpeed] on, and [isDeleting] is first
    set [typeSpeed + delayBetween] after the text became complete. *)
Theorem pause_lasts_tick_plus_delay (s : state) :
  live s -> ticking_due s (clock s + type_speed props) ->
  isDeleting s = false ->
  text_at props (currentIndex s) = Some (displayText s) ->
  (phase_of (fire props s) = PausingBeforeDelete
   /\ clock (fire props s) = clock s + type_speed props
   /\ displayText (fire props s) = displayText s)
  /\ deleting_after s (type_speed props + delay_between props).
Proof.
  intros L T Hdel Hfull.
  destruct (live_text s L) as (i & txt & Hix & Htxt & _).
  assert (txt = displayText s).
  { rewrite Hix in Hfull. simpl in Hfull. congruence. }
  subst txt.
  destruct (fire_full s _ i _ L T Hdel Hix Htxt)
    as (L2 & P2 & C2 & Hdel2 & Hix2 & E2); [lia|].
  destruct (fire_pause _ _ L2 P2) as (L3 & T3 & C3 & Hdel3 & Hix3 & E3).
  split.
  - split; [apply phase_pausing; eexists; exact P2|]. split; assumption.
  - exists 2. cbn [Nat.iter nat_rect]. split; [exact Hdel3|]. split; [|lia].
    intros [|[|m]] Hm; cbn [Nat.iter nat_rect]; [assumption | assumption | lia].
Qed.

(** C6. Unmounting from any reachable state cancels every pending timer,
    the tick as well as the pause timer, and from then on no event changes
    the hook state, raises anything or leaves a timer pending. *)
Theorem teardown_cancels_every_timer (s : state) (es : list event) :
  reachable props s -> mounted s = true ->
  let s' := step props Unmount s in
  pending (timers s') = []
  /\ hooks s' = hooks s
  /\ (let s'' := run_events props es s' in
      pending (timers s'') = [] /\ hooks s'' = hooks s'
      /\ uncaught s'' = uncaught s').
Proof.
  intros R Hm s'.
  destruct (unmount_clears s (reachable_tidy s R) Hm) as [Hq Hm'].
  fold s' in Hq, Hm'.
  split; [exact Hq|]. split.
  - subst s'. cbn [step]. rewrite Hm.
    destruct (cleanup_fields s) as (C1 & C2 & C3 & _).
    destruct s as [dt ix dl dly to m u l]. unfold hooks, unmount in *.
    simpl in *. unfold cleanup in *. simpl in *. reflexivity.
  - apply disposed_run; assumption.
Qed.

Hypothesis nonempty : texts props <> [].

Lemma inv_mount : inv (mount props).
Proof.
  destruct (texts props) as [|t0 ts] eqn:Ht; [contradiction|].
  assert (P : shows_prefix (mount props)).
  { exists 0, t0. simpl. rewrite Ht. repeat split. destruct t0; reflexivity. }
  split; [exact P|]. split; [|discriminate]. intros _.
  constructor; auto.
  - simpl. lia.
  - left. exists (0 + type_speed props), 1. unfold clock. simpl.
    repeat split. lia.
Qed.

(** Every valid index has a well-formed start of a cycle. *)
Lemma live_start_at (i : nat) (txt : string) :
  texts props !! i = Some txt ->
  live (start_at props i) /\ phase_of (start_at props i) = Typing.
Proof.
  intros Ht. split; [|reflexivity].
  constructor.
  - reflexivity.
  - simpl. lia.
  - exists i, txt. simpl. repeat split; auto. apply JsString.prefix_empty.
  - left. exists (0 + type_speed props), 1. unfold clock. simpl.
    repeat split. lia.
Qed.

Lemma reachable_inv (s : state) : reachable props s -> inv s.
Proof.
  induction 1 as [|e s _ IH]; [apply inv_mount | apply inv_step, IH].
Qed.

Lemma reachable_live (s : state) :
  reachable props s -> mounted s = true -> live s.
Proof. intros R Hm. apply (reachable_inv s R). exact Hm. Qed.

(** C8. In every reachable state of a component over non-empty [texts]
    the text shown is a prefix of [texts[currentIndex]], no longer than
    it; and any event, a tick in particular, changes its length by at most
    one: never down while typing, never up while deleting. *)
Theorem displayText_bounded_prefix (e : event) (s : state) :
  reachable props s ->
  (exists n txt,
      currentIndex s = Idx n /\ texts props !! n = Some txt
      /\ String.prefix (displayText s) txt = true
      /\ 0 <= len s <= String.length txt)
  /\ (isDeleting s = false ->
      len s <= len (step props e s) <= len s + 1)
  /\ (isDeleting s = true ->
      len (step props e s) <= len s <= len (step props e s) + 1).
Proof.
  intros R. destruct (reachable_inv s R) as (Hp & Hl & Hu). split.
  - destruct Hp as (n & txt & H1 & H2 & H3). exists n, txt.
    repeat split; auto; [lia|]. apply JsString.prefix_length, H3.
  - destruct e as [|dt| |].
    + destruct (mounted s) eqn:Hm.
      * destruct (live_fire s (Hl eq_refl)) as (_ & A & B). split; assumption.
      * cbn [step]. unfold fire. rewrite (Hu eq_refl). simpl. lia.
    + unfold len. rewrite step_text by discriminate. lia.
    + unfold len. rewrite step_text by discriminate. lia.
    + unfold len. rewrite step_text by discriminate. lia.
Qed.

(** *** More of the loop *)

Lemma commit_uncaught (s0 s1 : state) :
  uncaught (commit props s0 s1) = uncaught s1.
Proof.
  unfold commit. destruct (mounted s1 && deps_changed s0 s1); reflexivity.
Qed.

Lemma live_fire_uncaught (s : state) :
  live s -> uncaught (fire props s) = uncaught s.
Proof.
  intros L. destruct (live_text s L) as (n & txt & Hix & Htxt & _).
  destruct (live_queue s L) as [(d & h & Hq & _) | (d & h & Hq & _)];
    rewrite (fire_single s h d _ Hq); cbv zeta.
  - unfold tick_closure. rewrite Hix. cbn [text_at]. rewrite Htxt.
    cbn [run].
    destruct (isDeleting s); cbn [negb].
    + destruct (0 <? String.length (displayText s));
        rewrite commit_uncaught;
        unfold setDisplayText, setCurrentIndex, setIsDeleting, with_timers;
        cbn [mounted uncaught]; destruct (mounted s); reflexivity.
    + destruct (String.length (displayText s) <? String.length txt).
      * rewrite commit_uncaught.
        unfold setDisplayText, with_timers. cbn [mounted].
        destruct (mounted s); reflexivity.
      * unfold setTimeout. cbv beta iota zeta. rewrite commit_uncaught.
        reflexivity.
  - cbn [run]. rewrite commit_uncaught.
    unfold setIsDeleting, with_timers. cbn [mounted].
    destruct (mounted s); reflexivity.
Qed.

Lemma step_uncaught (e : event) (s : state) :
  inv s -> uncaught (step props e s) = uncaught s.
Proof.
  intros (_ & Hl & Hu). destruct (mounted s) eqn:Hm.
  - destruct e as [|dt| |]; cbn [step]; rewrite ?Hm.
    + apply live_fire_uncaught, Hl. reflexivity.
    + reflexivity.
    + reflexivity.
    + reflexivity.
  - apply (disposed_step e s Hm (Hu eq_refl)).
Qed.

(** One full cycle, with its clock: the helper behind the statements on
    cycles. *)
Lemma cycle_run (s : state) (d i : nat) (txt : string) :
  live s -> ticking_due s d -> isDeleting s = false ->
  currentIndex s = Idx i -> displayText s = "" ->
  texts props !! i = Some txt ->
  let n := String.length txt in
  let s' := Nat.iter (2 * n + 3) (fire props) s in
  live s'
  /\ ticking_due s'
       (d + n * type_speed props + delay_between props
        + (n + 1) * delete_speed props + type_speed props)
  /\ clock s'
     = d + n * type_speed props + delay_between props
       + (n + 1) * delete_speed props
  /\ isDeleting s' = false
  /\ currentIndex s' = Idx ((i + 1) mod length (texts props))
  /\ displayText s' = "".
Proof.
  intros L T Hdel Hix Hd Htxt n.
  destruct (typing_run n s d i txt L T Hdel Hix Htxt)
    as (L1 & T1 & Hdel1 & Hix1 & E1).
  { unfold len. rewrite Hd. reflexivity. }
  set (s1 := Nat.iter n (fire props) s) in *.
  destruct (fire_full s1 _ i txt L1 T1 Hdel1 Hix1 Htxt)
    as (L2 & P2 & _ & Hdel2 & Hix2 & E2); [rewrite E1; lia|].
  set (s2 := fire props s1) in *.
  destruct (fire_pause s2 _ L2 P2) as (L3 & T3 & _ & Hdel3 & Hix3 & E3).
  set (s3 := fire props s2) in *.
  destruct (deleting_run n s3 _ L3 T3 Hdel3)
    as (L4 & T4 & Hdel4 & Hix4 & E4).
  { unfold len. rewrite E3, E2, E1. reflexivity. }
  set (s4 := Nat.iter n (fire props) s3) in *.
  destruct (fire_next s4 _ i L4 T4 Hdel4) as (L5 & T5 & C5 & Hdel5 & Hix5 & E5).
  { congruence. }
  { rewrite E4. reflexivity. }
  replace (2 * n + 3) with (1 + (n + (2 + n))) by lia.
  rewrite !Nat.iter_add. cbn [Nat.iter nat_rect].
  fold s1. fold s2. fold s3. fold s4.
  split; [exact L5|].
  split.
  { replace (d + n * type_speed props + delay_between props
             + (n + 1) * delete_speed props + type_speed props)
      with (d + n * type_speed props + delay_between props
            + delete_speed props + n * delete_speed props + type_speed props)
      by lia.
    exact T5. }
  split; [rewrite C5; lia|].
  split; [exact Hdel5|]. split; [exact Hix5 | congruence].
Qed.

(** X3. A cycle over a text of [n] characters, started when its first tick
    has just been set, takes [(n + 1) * typeSpeed + delayBetween
    + (n + 1) * deleteSpeed]: one tick per character typed, the tick that
    starts the pause, the pause, one tick per character deleted and the
    tick that moves on. *)
Theorem cycle_duration (s : state) (i : nat) (txt : string) :
  live s -> ticking_due s (clock s + type_speed props) ->
  isDeleting s = false -> currentIndex s = Idx i -> displayText s = "" ->
  texts props !! i = Some txt ->
  let n := String.length txt in
  clock (Nat.iter (2 * n + 3) (fire props) s)
  = clock s + (n + 1) * type_speed props + delay_between props
    + (n + 1) * delete_speed props.
Proof.
  intros L T Hdel Hix Hd Htxt n.
  destruct (cycle_run s _ i txt L T Hdel Hix Hd Htxt) as (_ & _ & C & _).
  fold n in C. rewrite C. lia.
Qed.

(** A parent re-render of a live component: same hook state, a fresh tick. *)
Lemma parent_render_live (s : state) :
  live s ->
  let s' := step props ParentRender s in
  live s'
  /\ ticking_due s'
       (clock s + if isDeleting s then delete_speed props else type_speed props)
  /\ clock s' = clock s /\ isDeleting s' = isDeleting s
  /\ currentIndex s' = currentIndex s /\ displayText s' = displayText s.
Proof.
  intros L. cbn [step]. rewrite (live_mounted s L).
  apply rerun_live; auto.
  - apply (live_mounted s L).
  - apply (live_text s L).
  - apply cleanup_clears, (live_queue s L).
Qed.

(** The text is complete and its tick is due at [d]: [isDeleting] is first
    set at [d + delayBetween]. *)
Lemma full_text_deleting_at (s : state) (d : nat) :
  live s -> ticking_due s d -> isDeleting s = false ->
  text_at props (currentIndex s) = Some (displayText s) ->
  isDeleting (fire props s) = false
  /\ isDeleting (fire props (fire props s)) = true
  /\ clock (fire props (fire props s)) = d + delay_between props.
Proof.
  intros L T Hdel Hfull.
  destruct (live_text s L) as (i & txt & Hix & Htxt & _).
  assert (txt = displayText s).
  { rewrite Hix in Hfull. simpl in Hfull. congruence. }
  subst txt.
  destruct (fire_full s _ i _ L T Hdel Hix Htxt)
    as (L2 & P2 & C2 & Hdel2 & Hix2 & E2); [lia|].
  destruct (fire_pause _ _ L2 P2) as (L3 & T3 & C3 & Hdel3 & Hix3 & E3).
  auto.
Qed.

(** X5. A re-render of the parent while the typewriter pauses changes no
    state of the hooks, but its cleanup cancels the pause timer: the
    component is back in phase Typing with a fresh tick, and the whole pause
    starts again, so that [isDeleting] is first set
    [typeSpeed + delayBetween] after the re-render. *)
Theorem parent_render_restarts_pause (s : state) :
  live s -> phase_of s = PausingBeforeDelete ->
  let s' := step props ParentRender s in
  hooks s' = hooks s
  /\ phase_of s' = Typing
  /\ length (pending (timers s')) = 1
  /\ deleting_after s' (type_speed props + delay_between props).
Proof.
  intros L Hph s'.
  assert (P : pausing s).
  { destruct (live_queue s L) as [T | P]; [|exact P].
    rewrite (phase_ticking s T) in Hph. destruct (isDeleting s); discriminate. }
  destruct P as (d & h & Hq & Hdt & Hpos & Hle & Hdel & Hfull).
  destruct (parent_render_live s L) as (L' & T' & C' & Hdel' & Hix' & Hd').
  fold s' in L', T', C', Hdel', Hix', Hd'. rewrite Hdel in T', Hdel'.
  assert (Href : delayTimer s' = delayTimer s).
  { subst s'. cbn [step]. rewrite (live_mounted s L).
    destruct s as [dt ix dl dly to m u l]. reflexivity. }
  split; [unfold hooks; congruence|].
  split.
  { rewrite (phase_ticking s') by (eexists; exact T'). rewrite Hdel'. reflexivity. }
  split.
  { destruct T' as (h' & Hq' & _). rewrite Hq'. reflexivity. }
  destruct (full_text_deleting_at s' _ L' T' Hdel') as (F1 & F2 & F3).
  { rewrite Hix', Hd'. exact Hfull. }
  exists 2. cbn [Nat.iter nat_rect]. split; [exact F2|]. split.
  - intros [|[|m]] Hm; cbn [Nat.iter nat_rect]; [assumption | assumption | lia].
  - rewrite F3, C'. lia.
Qed.

(** X1. While a component over non-empty [texts] is mounted, exactly one
    timer is pending in every reachable state, not yet overdue: the tick set
    by the current render, which closes over the current text, phase and
    [texts[currentIndex]], or the pause timer, and that one only while the
    complete text is shown. The loop never stops and never runs twice. *)
Theorem exactly_one_timer_pending (s : state) :
  reachable props s -> mounted s = true ->
  exists t,
    pending (timers s) = [t] /\ clock s <= due t
    /\ (callback t
          = Tick (displayText s) (isDeleting s) (text_at props (currentIndex s))
        \/ (callback t = StartDeleting /\ isDeleting s = false
            /\ text_at props (currentIndex s) = Some (displayText s))).
Proof.
  intros R Hm. assert (L := reachable_live s R Hm).
  destruct (live_queue s L) as [(d & h & Hq & _ & Hle) | (d & h & Hq & _ & _ & Hle & Hdel & Hfull)].
  - eexists. split; [exact Hq|]. split; [exact Hle|]. left. reflexivity.
  - eexists. split; [exact Hq|]. split; [exact Hle|]. right. auto.
Qed.

(** X2. Over non-empty [texts] no timer callback ever throws: in every
    reachable state nothing has been thrown out of a tick or of the pause
    timer. *)
Theorem no_tick_throws (s : state) : reachable props s -> uncaught s = [].
Proof.
  induction 1 as [|e s R IH]; [reflexivity|].
  rewrite step_uncaught; [exact IH | apply reachable_inv, R].
Qed.

Lemma cycles_run (k : nat) :
  let s := Nat.iter (cycles_firings props k) (fire props) (mount props) in
  live s /\ ticking s /\ isDeleting s = false
  /\ currentIndex s = Idx (k mod length (texts props))
  /\ displayText s = "".
Proof.
  assert (Hn : length (texts props) <> 0).
  { destruct (texts props); [contradiction | discriminate]. }
  cbv zeta. induction k as [|k IH].
  - cbn [cycles_firings Nat.iter nat_rect].
    destruct (lookup_lt_is_Some_2 (texts props) 0) as [txt Ht]; [lia|].
    destruct (live_start_at 0 txt Ht) as [L P].
    destruct (phase_typing_inv _ L P) as [T Hdel].
    split; [exact L|]. split; [exact T|]. split; [exact Hdel|].
    rewrite Nat.Div0.mod_0_l. split; reflexivity.
  - destruct IH as (L & [d T] & Hdel & Hix & Hd).
    destruct (lookup_lt_is_Some_2 (texts props) (k mod length (texts props)))
      as [txt Ht]; [apply Nat.mod_upper_bound, Hn|].
    cbn [cycles_firings]. rewrite Ht. cbn [default from_option id].
    rewrite Nat.iter_add.
    destruct (cycle_run _ d _ txt L T Hdel Hix Hd Ht)
      as (L' & T' & _ & Hdel' & Hix' & Hd').
    split; [exact L'|]. split; [eexists; exact T'|]. split; [exact Hdel'|].
    split; [|exact Hd'].
    rewrite Hix'. f_equal.
    rewrite Nat.Div0.add_mod_idemp_l. f_equal. lia.
Qed.

(** X4. The texts are visited in order, round and round: [k] full cycles
    after the mount the component is in phase Typing with nothing shown at
    index [k mod texts.length], so the cycle that follows types
    [texts[k mod texts.length]]. *)
Theorem visits_texts_in_order (k : nat) :
  let s := Nat.iter (cycles_firings props k) (fire props) (mount props) in
  phase_of s = Typing /\ displayText s = ""
  /\ currentIndex s = Idx (k mod length (texts props))
  /\ (forall txt, texts props !! (k mod length (texts props)) = Some txt ->
        displayText (Nat.iter (String.length txt) (fire props) s) = txt).
Proof.
  destruct (cycles_run k) as (L & [d T] & Hdel & Hix & Hd). cbv zeta.
  split.
  { rewrite (phase_ticking _ (ex_intro _ d T)), Hdel. reflexivity. }
  split; [exact Hd|]. split; [exact Hix|].
  intros txt Ht.
  destruct (typing_run (String.length txt) _ d _ txt L T Hdel Hix Ht)
    as (_ & _ & _ & _ & E); [|exact E].
  unfold len. rewrite Hd. reflexivity.
Qed.

End TickInvariant.

(** *** An empty [texts] *)
Section EmptyTexts.
Variable props : TypeWriterProps.
Hypothesis empty : texts props = [].

Lemma stalled_rerun (s : state) :
  stalled s -> stalled (effect props (cleanup s)).
Proof.
  destruct s as [dt ix dl dly to m u [nw nh pd]].
  unfold stalled, hooks, effect, cleanup, tick_closure; simpl.
  intros [Hh Hq]. inversion Hh; subst. simpl. rewrite empty. simpl.
  split; [reflexivity|]. right.
  destruct Hq as [-> | (h & d & -> & ->)].
  - destruct to; simpl; eauto.
  - unfold clearTimeout; simpl. rewrite Nat.eqb_refl. simpl. eauto.
Qed.

(** A tick over an empty [texts] throws; nothing else happens. *)
Lemma stalled_fire (s : state) :
  stalled s ->
  stalled (fire props s)
  /\ (pending (timers s) <> [] ->
      uncaught (fire props s) = TypeError :: uncaught s
      /\ pending (timers (fire props s)) = []
      /\ hooks (fire props s) = hooks s).
Proof.
  intros [Hh [Hq | (h & d & Hq & Ht)]].
  - unfold fire. rewrite Hq. simpl.
    split; [split; auto | congruence].
  - rewrite (fire_single props s h d _ Hq).
    destruct s as [dt ix dl dly to m u [nw nh pd]].
    unfold stalled, hooks in *; simpl in *.
    inversion Hh; subst. simpl. auto 10.
Qed.

Lemma stalled_step (e : event) (s : state) :
  stalled s -> stalled (step props e s).
Proof.
  intros H. destruct e as [|dt| |]; cbn [step].
  - apply stalled_fire, H.
  - destruct s as [d ix dl dly to m u [nw nh pd]].
    unfold stalled, hooks, idle in *; simpl in *.
    destruct H as [Hh [-> | (h & due & -> & ->)]]; simpl; eauto 10.
  - destruct (mounted s); [apply stalled_rerun|]; exact H.
  - destruct (mounted s); [|exact H].
    destruct s as [d ix dl dly to m u [nw nh pd]].
    unfold stalled, hooks, unmount, cleanup in *; simpl in *.
    destruct H as [Hh Hq]. inversion Hh; subst. simpl.
    split; [reflexivity|]. left.
    destruct Hq as [-> | (h & due & -> & ->)]; simpl.
    + destruct to; reflexivity.
    + rewrite Nat.eqb_refl. reflexivity.
Qed.

Lemma reachable_stalled (s : state) : reachable props s -> stalled s.
Proof.
  induction 1 as [|e s _ IH]; [|apply stalled_step, IH].
  split; [reflexivity|]. right. unfold mount, effect, tick_closure. simpl.
  rewrite empty. simpl. eauto.
Qed.

(** C2, as the code has it. Over an empty [texts] every reachable state
    renders the empty text, but a tick is no no-op: whenever a timer is
    pending, its firing throws a [TypeError] out of the callback, changes
    no hook state and leaves no timer pending, so the loop stops until the
    next re-render. *)
Theorem empty_texts_tick_throws (s : state) :
  reachable props s ->
  render s = ""
  /\ (pending (timers s) <> [] ->
      uncaught (step props Fire s) = TypeError :: uncaught s
      /\ pending (timers (step props Fire s)) = []
      /\ hooks (step props Fire s) = hooks s).
Proof.
  intros R. assert (S := reachable_stalled s R).
  split.
  - destruct S as [Hh _]. unfold hooks in Hh. unfold render. congruence.
  - apply (stalled_fire s S).
Qed.
End EmptyTexts.

(** *** Concrete runs *)

(** The scenario of the specification: time, text shown and phase after
    each of the first firings. *)
Example scenario_frames :
  frames ab 9
  = [(0, "", Typing); (1, "a", Typing); (2, "ab", Typing);
     (3, "ab", PausingBeforeDelete); (4, "ab", Deleting);
     (5, "a", Deleting); (6, "", Deleting); (7, "", Typing);
     (8, "a", Typing)].
Proof. reflexivity. Qed.

Lemma ab_nonempty : texts ab <> [].
Proof. discriminate. Qed.

Lemma ab_complete_reachable : reachable ab ab_complete.
Proof. apply (reach_step ab Fire), (reach_step ab Fire), reach_mount. Qed.

(** C2 fails as stated: over an empty [texts] the first tick throws. *)
Lemma empty_texts_not_fail_safe : ~ fails_safe no_texts.
Proof.
  intros H.
  destruct (H (step no_texts Fire (mount no_texts))) as [_ Hu].
  - apply reach_step, reach_mount.
  - vm_compute in Hu. discriminate.
Qed.

Lemma empty_texts_tick_throws_witness :
  render (mount no_texts) = ""
  /\ uncaught (step no_texts Fire (mount no_texts)) = [TypeError].
Proof.
  destruct (empty_texts_tick_throws no_texts eq_refl (mount no_texts)
              (reach_mount no_texts)) as [Hr Hf].
  split; [exact Hr|].
  destruct Hf as (Hu & _); [vm_compute; discriminate | exact Hu].
Defined.

Lemma full_cycle_advances_index_witness :
  displayText (Nat.iter 18 (fire hero) (start_at hero 2)) = "Learning in public"
  /\ phase_of (Nat.iter 39 (fire hero) (start_at hero 2)) = Typing
  /\ currentIndex (Nat.iter 39 (fire hero) (start_at hero 2)) = Idx 0
  /\ displayText (Nat.iter 39 (fire hero) (start_at hero 2)) = "".
Proof.
  destruct (live_start_at hero 2 "Learning in public" eq_refl) as [L P].
  destruct (full_cycle_advances_index hero (start_at hero 2) 2
              "Learning in public" L P)
    as (H1 & _ & _ & Hp & Hi & Hd); try reflexivity.
  repeat split; assumption.
Defined.

(** C5 fails as stated: in the scenario (all durations 1) the text is
    complete at time 2 and [isDeleting] is first set at time 4, not 3. *)
Lemma ab_pause_exceeds_delay :
  phase_of ab_complete = Typing
  /\ text_at ab (currentIndex ab_complete) = Some (displayText ab_complete)
  /\ ~ deleting_after ab ab_complete (delay_between ab).
Proof.
  split; [reflexivity|]. split; [reflexivity|].
  intros (n & Hn & Hmin & Hclk).
  destruct n as [|[|[|n]]].
  - vm_compute in Hn. discriminate.
  - vm_compute in Hn. discriminate.
  - vm_compute in Hclk. discriminate.
  - assert (H2 := Hmin 2 ltac:(lia)). vm_compute in H2. discriminate.
Qed.

Lemma pause_lasts_tick_plus_delay_witness :
  deleting_after ab ab_complete 2.
Proof.
  apply (pause_lasts_tick_plus_delay ab ab_complete).
  - apply reachable_live;
      [apply ab_nonempty | apply ab_complete_reachable | reflexivity].
  - exists 3. vm_compute. repeat split. lia.
  - reflexivity.
  - reflexivity.
Defined.

Lemma teardown_cancels_every_timer_witness :
  pending (timers (step ab Unmount ab_complete)) = []
  /\ hooks (run_events ab [Fire; Idle 5; Fire]
                       (step ab Unmount ab_complete))
     = ("ab", Idx 0, false, None).
Proof.
  destruct (teardown_cancels_every_timer ab ab_complete [Fire; Idle 5; Fire]
              ab_complete_reachable eq_refl) as (Hq & Hh & _ & Hh' & _).
  split; [exact Hq|]. rewrite Hh', Hh. reflexivity.
Defined.

Lemma displayText_bounded_prefix_witness :
  len ab_complete <= len (step ab Fire ab_complete) <= len ab_complete + 1.
Proof.
  destruct (displayText_bounded_prefix ab ab_nonempty Fire ab_complete
              ab_complete_reachable) as (_ & Hup & _).
  apply Hup. reflexivity.
Defined.

(** *** Concrete runs of the extras *)

Lemma hero_nonempty : texts hero <> [].
Proof. discriminate. Qed.

(** The scenario while it pauses. *)
Lemma ab_pausing_reachable : reachable ab (fire ab ab_complete).
Proof. apply (reach_step ab Fire), ab_complete_reachable. Qed.

Lemma exactly_one_timer_pending_witness :
  exists t, pending (timers ab_complete) = [t]
            /\ callback t = Tick "ab" false (Some "ab").
Proof.
  destruct (exactly_one_timer_pending ab ab_nonempty ab_complete
              ab_complete_reachable eq_refl) as (t & Hq & _ & Hc).
  exists t. split; [exact Hq|].
  destruct Hc as [Hc | (Hc & _)]; [exact Hc|].
  vm_compute in Hq. injection Hq as <-. discriminate.
Defined.

Lemma no_tick_throws_witness : uncaught (fire ab ab_complete) = [].
Proof. apply (no_tick_throws ab ab_nonempty), ab_pausing_reachable. Defined.

Lemma cycle_duration_witness :
  clock (Nat.iter 39 (fire hero) (start_at hero 2)) = 4080.
Proof.
  destruct (live_start_at hero 2 "Learning in public" eq_refl) as [L _].
  assert (T : ticking_due hero (start_at hero 2)
                (clock (start_at hero 2) + type_speed hero)).
  { exists 1. vm_compute. repeat split. lia. }
  exact (cycle_duration hero (start_at hero 2) 2 "Learning in public" L T
           eq_refl eq_refl eq_refl eq_refl).
Defined.

Lemma visits_texts_in_order_witness :
  currentIndex (Nat.iter (cycles_firings hero 4) (fire hero) (mount hero))
  = Idx 1.
Proof.
  destruct (visits_texts_in_order hero hero_nonempty 4) as (_ & _ & H & _).
  exact H.
Defined.

Lemma parent_render_restarts_pause_witness :
  phase_of (fire ab ab_complete) = PausingBeforeDelete
  /\ phase_of (step ab ParentRender (fire ab ab_complete)) = Typing
  /\ deleting_after ab (step ab ParentRender (fire ab ab_complete)) 2.
Proof.
  split; [reflexivity|].
  destruct (parent_render_restarts_pause ab (fire ab ab_complete))
    as (_ & Hp & _ & Hd).
  - apply reachable_live;
      [apply ab_nonempty | apply ab_pausing_reachable | reflexivity].
  - reflexivity.
  - split; [exact Hp | exact Hd].
Defined.

End TypeWriterSpec.

(** ** [Home] and [ProjectModal]: the modal *)
Module ModalSpec.
Import EventLoop Modal.

Section ModalInvariant.
Variable style : gmap string string.
Variable others : list nat.

Local Abbreviation framed := (Modal.framed style others).
Local Abbreviation inv := (Modal.inv style others).
Local Abbreviation inv_clean := (Modal.inv_clean style others).
Local Abbreviation inv_overflow := (Modal.inv_overflow style others).
Local Abbreviation inv_longhands := (Modal.inv_longhands style others).
Local Abbreviation inv_frame := (Modal.inv_frame style others).
Local Abbreviation inv_focus := (Modal.inv_focus style others).
Local Abbreviation inv_listener := (Modal.inv_listener style others).
Local Abbreviation inv_unmounted := (Modal.inv_unmounted style others).

Lemma filter_foreign (r : nat) (fs : list nat) :
  List.filter (fun l => negb (listener_eqb l (OnKeyDown r))) (map Foreign fs)
  = map Foreign fs.
Proof. induction fs as [|f fs IH]; simpl; [reflexivity | now rewrite IH]. Qed.

Lemma lookup_setOverflow (v : string) (m : gmap string string) :
  setOverflow v m !! "overflow" = Some v
  /\ setOverflow v m !! "overflow-x" = Some v
  /\ setOverflow v m !! "overflow-y" = Some v.
Proof.
  unfold setOverflow. split; [apply lookup_insert_eq|]. split.
  - rewrite lookup_insert_ne by discriminate. apply lookup_insert_eq.
  - rewrite !lookup_insert_ne by discriminate. apply lookup_insert_eq.
Qed.

Lemma lookup_setOverflow_other (v k : string) (m : gmap string string) :
  ~ scroll_property k -> setOverflow v m !! k = m !! k.
Proof.
  unfold scroll_property, setOverflow. intros Hk.
  rewrite !lookup_insert_ne; [reflexivity | intros <-; tauto..].
Qed.

Lemma blur_not_button (e : element) : blur e <> CloseButton.
Proof. destruct e; discriminate. Qed.

Lemma blur_other (e : element) : e <> CloseButton -> blur e = e.
Proof. destruct e; [contradiction | reflexivity..]. Qed.

Lemma inv_framed (s : state) : inv s -> framed s.
Proof.
  intros [_ _ _ Hf _ Hl Hu]. split; [exact Hf|].
  destruct (mounted s) eqn:Hm.
  - destruct (Hl eq_refl) as (r & Hr & Hk).
    destruct (isModalOpen s).
    + exists [OnKeyDown r]. split; [exact Hk|]. right. eauto.
    + exists []. split; [exact Hk | left; reflexivity].
  - exists []. rewrite app_nil_r. split; [apply Hu; reflexivity | left; reflexivity].
Qed.

(** The cleanup takes the own listener off, whatever the state says. *)
Lemma cleanup_keydown (s : state) :
  framed s -> keydown (document (cleanup s)) = map Foreign others.
Proof.
  intros (_ & own & Hk & Hown). unfold cleanup; simpl. rewrite Hk.
  destruct Hown as [-> | (r & -> & ->)].
  - rewrite app_nil_r. destruct (onKeyDown s); [apply filter_foreign | reflexivity].
  - rewrite List.filter_app, filter_foreign. simpl.
    rewrite Nat.eqb_refl. simpl. apply app_nil_r.
Qed.

Lemma framed_ext (s s' : state) :
  onKeyDown s' = onKeyDown s ->
  bodyStyle (document s') = bodyStyle (document s) ->
  keydown (document s') = keydown (document s) ->
  framed s -> framed s'.
Proof. unfold framed. intros -> -> ->. auto. Qed.

(** A re-render of a mounted component re-establishes the invariant. *)
Lemma commit_dirty (s : state) :
  framed s -> mounted s = true -> dirty s = true -> inv (commit s).
Proof.
  intros F Hm Hd.
  assert (K := cleanup_keydown (reconcile s)
                 (framed_ext s (reconcile s) eq_refl eq_refl eq_refl F)).
  destruct F as (Hf & _).
  unfold commit. rewrite Hm, Hd. cbn [andb].
  unfold effect. cbn [selectedProject isModalOpen dirty mounted onKeyDown
                      effectRuns timers document cleanup bodyStyle keydown
                      activeElement] in *.
  set (v := if isModalOpen (reconcile s) then "hidden" else "unset").
  destruct (lookup_setOverflow v
              (setOverflow "unset" (bodyStyle (document (reconcile s)))))
    as (L0 & L1 & L2).
  constructor; unfold overflow;
    cbn [selectedProject isModalOpen dirty mounted onKeyDown
         effectRuns timers document bodyStyle keydown activeElement].
  - reflexivity.
  - rewrite L0. subst v. cbn [reconcile isModalOpen mounted]. rewrite Hm.
    reflexivity.
  - rewrite L0, L1, L2. auto.
  - intros k Hk. rewrite !lookup_setOverflow_other by exact Hk. apply Hf, Hk.
  - intros H. split; [exact Hm|]. change (render s <> None).
    change (render (cleanup (reconcile s))) with (render s) in H.
    change (isModalOpen (reconcile s)) with (isModalOpen s) in H.
    cbn [reconcile document activeElement] in H.
    destruct (render s) as [dlg|] eqn:Hr; [discriminate|].
    exfalso. destruct (isModalOpen s); exact (blur_not_button _ H).
  - intros _. eexists. split; [reflexivity|]. rewrite K.
    change (isModalOpen (reconcile s)) with (isModalOpen s).
    destruct (isModalOpen s); [reflexivity | symmetry; apply app_nil_r].
  - change (mounted (reconcile s)) with (mounted s). congruence.
Qed.

(** [inv] only looks at this much of a state. *)
Lemma inv_ext (s s' : state) :
  dirty s' = dirty s -> mounted s' = mounted s ->
  isModalOpen s' = isModalOpen s -> selectedProject s' = selectedProject s ->
  onKeyDown s' = onKeyDown s ->
  document s' = document s -> inv s -> inv s'.
Proof.
  intros E1 E2 E3 E4 E5 E6 [H1 H2 H3 H4 H5 H6 H7].
  constructor; unfold overflow, render in *;
    rewrite ?E1, ?E2, ?E3, ?E4, ?E5, ?E6; auto.
Qed.

(** After a handler ran on a state of the invariant. *)
Lemma commit_after (s s' : state) :
  inv s -> mounted s' = mounted s -> onKeyDown s' = onKeyDown s ->
  document s' = document s ->
  (dirty s' = false -> isModalOpen s' = isModalOpen s) ->
  (dirty s' = false -> selectedProject s' = selectedProject s) ->
  (mounted s = false -> dirty s' = false) ->
  inv (commit s').
Proof.
  intros I Em Ek Ed Hsame Hproj Hun.
  assert (Keep : dirty s' = false -> inv s').
  { intros Hd. apply (inv_ext s); auto. rewrite Hd. symmetry. apply I. }
  destruct (mounted s') eqn:Hm; [destruct (dirty s') eqn:Hd|].
  - apply commit_dirty; auto.
    apply (framed_ext s); auto; [rewrite Ed; reflexivity..|].
    apply inv_framed, I.
  - unfold commit. rewrite Hm, Hd. simpl. apply Keep. reflexivity.
  - unfold commit. rewrite Hm. simpl. apply Keep, Hun. congruence.
Qed.

Lemma commit_clean (s : state) : dirty s = false -> commit s = s.
Proof. unfold commit. intros ->. rewrite andb_false_r. reflexivity. Qed.

Lemma commit_fields (s : state) :
  selectedProject (commit s) = selectedProject s
  /\ isModalOpen (commit s) = isModalOpen s
  /\ mounted (commit s) = mounted s
  /\ timers (commit s) = timers s.
Proof. unfold commit. destruct (mounted s && dirty s); simpl; auto. Qed.

Lemma dispatch_foreign (fs : list nat) (s : state) :
  fold_left (fun s l => match l with
                        | OnKeyDown _ => handleCloseModal s
                        | Foreign _ => s
                        end) (map Foreign fs) s = s.
Proof. induction fs as [|f fs IH]; simpl; auto. Qed.

(** In a state of the invariant an Escape reaches [onClose] exactly when
    the modal is mounted and open. *)
Lemma dispatchEscape_inv (s : state) :
  inv s ->
  dispatchEscape s
  = if mounted s && isModalOpen s then handleCloseModal s else s.
Proof.
  intros I. unfold dispatchEscape.
  destruct (mounted s) eqn:Hm.
  - destruct (inv_listener s I Hm) as (r & _ & ->).
    rewrite fold_left_app, dispatch_foreign.
    destruct (isModalOpen s); reflexivity.
  - rewrite (inv_unmounted s I Hm). apply dispatch_foreign.
Qed.

Lemma inv_click (p : Project) (s : state) :
  inv s -> inv (commit (handleProjectClick p s)).
Proof.
  intros I. assert (Hd := inv_clean s I).
  destruct s as [sp io di mo ok er tm doc]. simpl in Hd. subst di.
  apply (commit_after _ _ I); destruct mo; simpl; auto; discriminate.
Qed.

Lemma inv_close (s : state) : inv s -> inv (commit (handleCloseModal s)).
Proof.
  intros I. assert (Hd := inv_clean s I).
  destruct s as [sp io di mo ok er tm doc]. simpl in Hd. subst di.
  apply (commit_after _ _ I); destruct mo, io; simpl; auto; discriminate.
Qed.

Lemma inv_timer (t : timer task) (l : loop task) (s : state) :
  inv s -> inv (commit (run (callback t) (with_timers l s))).
Proof.
  intros I. assert (Hd := inv_clean s I).
  destruct t as [h d []]. cbn [callback run].
  destruct s as [sp io di mo ok er tm doc]. simpl in Hd. subst di.
  apply (commit_after _ _ I); destruct mo, sp; simpl; auto; discriminate.
Qed.

Lemma inv_drain (fuel limit : nat) (s : state) :
  inv s -> inv (drain fuel limit s).
Proof.
  revert s; induction fuel as [|fuel IH]; intros s I; simpl; [exact I|].
  destruct (earliest (pending (timers s))) as [t|]; [|exact I].
  destruct (due t <=? limit); [|exact I].
  apply IH, inv_timer, I.
Qed.

Lemma inv_unmount (s : state) : inv s -> mounted s = true -> inv (unmount s).
Proof.
  intros I Hm. assert (K := cleanup_keydown s (inv_framed s I)).
  destruct (lookup_setOverflow "unset" (bodyStyle (document s)))
    as (L0 & L1 & L2).
  constructor; unfold overflow; simpl.
  - apply I.
  - exact L0.
  - rewrite L0, L1, L2. auto.
  - intros k Hk. rewrite lookup_setOverflow_other by exact Hk. apply I, Hk.
  - intros H. exfalso. exact (blur_not_button _ H).
  - discriminate.
  - intros _. exact K.
Qed.

Lemma modal_inv_step (e : event) (s : state) : inv s -> inv (step e s).
Proof.
  intros I. destruct e as [p| | |dt|]; cbn [step].
  - apply inv_click, I.
  - apply inv_close, I.
  - rewrite (dispatchEscape_inv s I).
    destruct (mounted s && isModalOpen s); [apply inv_close, I|].
    rewrite commit_clean; [exact I | apply I].
  - unfold wait. eapply inv_ext; [| | | | | |eapply inv_drain, I]; reflexivity.
  - destruct (mounted s) eqn:Hm; [apply inv_unmount|]; assumption.
Qed.

Lemma modal_inv_mount : inv (mount style others).
Proof.
  destruct (lookup_setOverflow "unset" style) as (L0 & L1 & L2).
  constructor; unfold overflow; simpl.
  - reflexivity.
  - exact L0.
  - rewrite L0, L1, L2. auto.
  - intros k Hk. apply lookup_setOverflow_other, Hk.
  - discriminate.
  - intros _. exists 0. split; [reflexivity | symmetry; apply app_nil_r].
  - discriminate.
Qed.

Lemma modal_reachable_inv (s : state) : reachable style others s -> inv s.
Proof.
  induction 1 as [|e s _ IH]; [apply modal_inv_mount | apply modal_inv_step, IH].
Qed.

Lemma filter_is_foreign (fs : list nat) (own : list listener) :
  (forall l, In l own -> is_foreign l = false) ->
  List.filter is_foreign (map Foreign fs ++ own) = map Foreign fs.
Proof.
  intros H. rewrite List.filter_app.
  assert (F : List.filter is_foreign (map Foreign fs) = map Foreign fs).
  { induction fs as [|f fs IH]; simpl; [reflexivity | now rewrite IH]. }
  assert (O : List.filter is_foreign own = []).
  { induction own as [|l own IH]; simpl; [reflexivity|].
    rewrite (H l) by (left; reflexivity). apply IH.
    intros l' Hl'. apply H. right. exact Hl'. }
  rewrite F, O. apply app_nil_r.
Qed.

Lemma click_fields (p : Project) (s : state) :
  mounted s = true ->
  isModalOpen (step (Click p) s) = true
  /\ selectedProject (step (Click p) s) = Some p
  /\ mounted (step (Click p) s) = true.
Proof.
  intros Hm. cbn [step].
  destruct (commit_fields (handleProjectClick p s)) as (-> & -> & -> & _).
  unfold handleProjectClick, setIsModalOpen, setSelectedProject.
  rewrite !Hm. simpl. rewrite ?Hm. simpl. auto.
Qed.

Lemma close_fields (s : state) :
  mounted s = true ->
  isModalOpen (step CloseModal s) = false
  /\ selectedProject (step CloseModal s) = selectedProject s
  /\ mounted (step CloseModal s) = true
  /\ timers (step CloseModal s)
     = snd (setTimeout ClearSelectedProject closeDelay (timers s)).
Proof.
  intros Hm. cbn [step].
  destruct (commit_fields (handleCloseModal s)) as (-> & -> & -> & ->).
  unfold handleCloseModal, setIsModalOpen. rewrite Hm. simpl. auto.
Qed.

Lemma close_not_open (s : state) :
  mounted (step CloseModal s) && isModalOpen (step CloseModal s) = false.
Proof.
  destruct (mounted s) eqn:Hm.
  - destruct (close_fields s Hm) as (-> & _). apply andb_false_r.
  - cbn [step].
    destruct (commit_fields (handleCloseModal s)) as (_ & _ & -> & _).
    unfold handleCloseModal, setIsModalOpen. rewrite !Hm. simpl.
    rewrite ?Hm. reflexivity.
Qed.

Lemma unmount_not_mounted (s : state) : mounted (step Unmount s) = false.
Proof. cbn [step]. destruct (mounted s) eqn:Hm; [reflexivity | exact Hm]. Qed.

Lemma reachable_run (es : list event) (s : state) :
  reachable style others s -> reachable style others (run_events es s).
Proof.
  revert s; induction es as [|e es IH]; intros s R; simpl; [exact R|].
  apply IH, reach_step, R.
Qed.

Lemma run_timers (t : task) (s : state) : timers (run t s) = timers s.
Proof.
  destruct t. unfold run, setSelectedProject. destruct (mounted s); reflexivity.
Qed.

(** The fuel of [wait] is enough: afterwards no timer that was due is
    pending, and the clock has advanced by [dt]. *)
Lemma drain_complete (limit fuel : nat) (s : state) :
  length (pending (timers s)) <= fuel ->
  forall u, In u (pending (timers (drain fuel limit s))) -> limit < due u.
Proof.
  revert s; induction fuel as [|fuel IH]; intros s Hlen u; simpl.
  - destruct (pending (timers s)); [intros [] | simpl in Hlen; lia].
  - destruct (earliest (pending (timers s))) as [t|] eqn:E.
    + destruct (Nat.leb_spec (due t) limit) as [Hle | Hgt].
      * apply IH.
        destruct (commit_fields
                    (run (callback t) (with_timers (fired t (timers s)) s)))
          as (_ & _ & _ & ->).
        rewrite run_timers. cbn [with_timers timers].
        assert (H := EventLoopFacts.fired_shorter t (timers s)
                       (EventLoopFacts.earliest_In _ _ E)). lia.
      * intros Hu. assert (H := EventLoopFacts.earliest_le _ _ _ E Hu). lia.
    + apply EventLoopFacts.earliest_None in E. rewrite E. intros [].
Qed.

Lemma drain_clock (limit fuel : nat) (s : state) :
  clock s <= limit -> clock (drain fuel limit s) <= limit.
Proof.
  revert s; induction fuel as [|fuel IH]; intros s Hc; simpl; [exact Hc|].
  destruct (earliest (pending (timers s))) as [t|]; [|exact Hc].
  destruct (Nat.leb_spec (due t) limit) as [Hle | Hgt]; [|exact Hc].
  apply IH. unfold clock in *.
  destruct (commit_fields
              (run (callback t) (with_timers (fired t (timers s)) s)))
    as (_ & _ & _ & ->).
  rewrite run_timers. simpl. lia.
Qed.

Lemma wait_complete (dt : nat) (s : state) :
  clock (step (Wait dt) s) = clock s + dt
  /\ forall u, In u (pending (timers (step (Wait dt) s))) ->
               clock s + dt < due u.
Proof.
  cbn [step]. unfold wait, clock. cbn [with_timers timers now pending]. split.
  - assert (H := drain_clock (now (timers s) + dt)
                   (length (pending (timers s))) s).
    unfold clock in H. lia.
  - apply drain_complete. lia.
Qed.

(** X10. With no older close timer pending, closing keeps the project for
    the whole delay and drops it when the delay is over. *)
Lemma close_then_wait (dt : nat) (s : state) :
  mounted s = true -> pending (timers s) = [] ->
  let s1 := step CloseModal s in
  isModalOpen s1 = false /\ selectedProject s1 = selectedProject s
  /\ selectedProject (step (Wait dt) s1)
     = if closeDelay <=? dt then None else selectedProject s.
Proof.
  intros Hm Hq s1.
  destruct (close_fields s Hm) as (Ho & Hp & Hm1 & Ht). fold s1 in Ho, Hp, Hm1, Ht.
  split; [exact Ho|]. split; [exact Hp|].
  cbn [step]. unfold wait. cbn [selectedProject with_timers].
  rewrite Ht. unfold setTimeout. rewrite Hq. cbn [snd pending app length drain].
  rewrite Ht. unfold setTimeout. rewrite Hq.
  cbn [snd pending app earliest due now callback].
  destruct (Nat.leb_spec closeDelay dt) as [Hle | Hlt];
    destruct (Nat.leb_spec (now (timers s) + closeDelay) (now (timers s) + dt));
    try lia.
  - cbn [drain].
    match goal with |- selectedProject (commit ?x) = _ =>
      destruct (commit_fields x) as (-> & _) end.
    unfold run, setSelectedProject. cbn [mounted with_timers].
    rewrite Hm1. reflexivity.
  - exact Hp.
Qed.

Lemma drain_cases (limit fuel : nat) (s : state) :
  mounted s = true ->
  drain fuel limit s = s \/ selectedProject (drain fuel limit s) = None.
Proof.
  revert s; induction fuel as [|fuel IH]; intros s Hm; simpl; [left; reflexivity|].
  destruct (earliest (pending (timers s))) as [t|]; [|left; reflexivity].
  destruct (due t <=? limit); [|left; reflexivity].
  right.
  set (s' := commit (run (callback t) (with_timers (fired t (timers s)) s))).
  assert (Hs' : selectedProject s' = None /\ mounted s' = true).
  { subst s'.
    destruct (commit_fields
                (run (callback t) (with_timers (fired t (timers s)) s)))
      as (-> & _ & -> & _).
    destruct t as [h d []]. cbn [callback run].
    unfold setSelectedProject. cbn [with_timers mounted]. rewrite Hm. auto. }
  destruct Hs' as [Hp Hm'].
  destruct (IH s' Hm') as [-> | H]; assumption.
Qed.

(** X9. Whatever else is pending, a close is immediate and leaves the
    project selected, and the project is gone once the close delay has
    passed. *)
Lemma close_clears_after_delay (dt : nat) (s : state) :
  mounted s = true -> closeDelay <= dt ->
  let s1 := step CloseModal s in
  isModalOpen s1 = false /\ selectedProject s1 = selectedProject s
  /\ selectedProject (step (Wait dt) s1) = None.
Proof.
  intros Hm Hdt s1.
  destruct (close_fields s Hm) as (Ho & Hp & Hm1 & Ht). fold s1 in Ho, Hp, Hm1, Ht.
  split; [exact Ho|]. split; [exact Hp|].
  cbn [step]. unfold wait. cbn [selectedProject with_timers].
  set (limit := now (timers s1) + dt).
  set (fuel := length (pending (timers s1))).
  destruct (drain_cases limit fuel s1 Hm1) as [E | E]; [|exact E].
  exfalso.
  assert (Hin : In (Timer (nextHandle (timers s)) (now (timers s) + closeDelay)
                          ClearSelectedProject)
                   (pending (timers (drain fuel limit s1)))).
  { rewrite E, Ht. simpl. apply in_or_app. right. left. reflexivity. }
  apply (drain_complete limit fuel s1 (Nat.le_refl _)) in Hin.
  subst limit. rewrite Ht in Hin. simpl in Hin. lia.
Qed.

(** C7. In every reachable state an Escape key press on a mounted, open
    modal leaves exactly the state that [onClose] leaves, and an Escape
    key press on a closed modal leaves the state as it is. *)
Theorem escape_is_close (s : state) :
  reachable style others s ->
  (mounted s = true -> isModalOpen s = true ->
   step KeyEscape s = step CloseModal s)
  /\ (isModalOpen s = false -> step KeyEscape s = s).
Proof.
  intros R. assert (I := modal_reachable_inv s R).
  cbn [step]. rewrite (dispatchEscape_inv s I). split.
  - intros -> ->. reflexivity.
  - intros ->. rewrite andb_false_r. apply commit_clean, I.
Qed.

Lemma own_listeners_inv (s : state) :
  inv s ->
  exists r, own_listeners s
            = if mounted s && isModalOpen s then [OnKeyDown r] else [].
Proof.
  intros I. unfold own_listeners.
  assert (F : forall own : list listener,
             (forall l, In l own -> is_foreign l = false) ->
             List.filter (fun l => negb (is_foreign l))
                         (map Foreign others ++ own) = own).
  { intros own H. rewrite List.filter_app.
    assert (E : List.filter (fun l => negb (is_foreign l))
                            (map Foreign others) = []).
    { clear. induction others as [|f fs IH]; simpl; auto. }
    rewrite E. simpl. induction own as [|l own IH]; simpl; [reflexivity|].
    rewrite (H l) by (left; reflexivity). simpl. f_equal.
    apply IH. intros l' Hl'. apply H. right. exact Hl'. }
  destruct (mounted s) eqn:Hm.
  - destruct (inv_listener s I Hm) as (r & _ & ->). exists r.
    rewrite F; [reflexivity|].
    intros l Hl. destruct (isModalOpen s); simpl in Hl; [|contradiction].
    destruct Hl as [<- | []]. reflexivity.
  - exists 0. rewrite (inv_unmounted s I Hm).
    rewrite <- (F []) at 2 by (intros l []). now rewrite app_nil_r.
Qed.

Lemma click_focus (p : Project) (s : state) :
  inv s -> mounted s = true ->
  activeElement (document (step (Click p) s)) = CloseButton.
Proof.
  intros I Hm. assert (Hd := inv_clean s I).
  destruct s as [sp io di mo ok er tm doc]. simpl in *. subst.
  reflexivity.
Qed.

Lemma close_focus (s : state) :
  inv s ->
  activeElement (document (step CloseModal s))
  = blur (activeElement (document s)).
Proof.
  intros I. assert (Hd := inv_clean s I). assert (Hf := inv_focus s I).
  destruct s as [sp io di mo ok er tm doc]. simpl in Hd. subst di.
  destruct mo, io; [reflexivity|..];
    symmetry; apply blur_other; intros E; destruct (Hf E) as [Hm Hr];
    solve [discriminate Hm | apply Hr; reflexivity].
Qed.

Lemma unmount_focus (s : state) :
  inv s ->
  activeElement (document (step Unmount s))
  = blur (activeElement (document s)).
Proof.
  intros I. cbn [step]. destruct (mounted s) eqn:Hm; [reflexivity|].
  symmetry. apply blur_other. intros E.
  destruct (inv_focus s I E) as [Hm' _]. congruence.
Qed.

(** C9, as the code has it. In every reachable state the body's [overflow]
    is ["hidden"] exactly while the modal is mounted and open, and ["unset"]
    otherwise: a click on a card locks the scroll, closing unlocks it at
    once, and so does unmounting. The assignment to the shorthand writes its
    longhands [overflow-x] and [overflow-y] with it; no other property of
    the body's style is written and no keydown listener of anybody else is
    added, moved or removed. What the operations touch besides is the
    modal's own keydown listener, which is installed exactly while the modal
    is open, and the focus: a click on a card moves it to the close button,
    it is on the close button only while the dialog is on the page, and
    closing and unmounting remove the dialog, so that a focus on the close
    button falls back to the body and any other focus stays. *)
Theorem scroll_locked_exactly_while_open (s : state) :
  reachable style others s ->
  overflow s = Some (if mounted s && isModalOpen s then "hidden" else "unset")
  /\ (forall p, mounted s = true ->
                overflow (step (Click p) s) = Some "hidden")
  /\ overflow (step CloseModal s) = Some "unset"
  /\ overflow (step Unmount s) = Some "unset"
  /\ (bodyStyle (document s) !! "overflow-x" = overflow s
      /\ bodyStyle (document s) !! "overflow-y" = overflow s)
  /\ (forall k, ~ scroll_property k ->
                bodyStyle (document s) !! k = style !! k)
  /\ List.filter is_foreign (keydown (document s)) = map Foreign others
  /\ (exists r, own_listeners s
                = if mounted s && isModalOpen s then [OnKeyDown r] else [])
  /\ (forall p, mounted s = true ->
                activeElement (document (step (Click p) s)) = CloseButton)
  /\ (activeElement (document s) = CloseButton ->
      mounted s = true /\ render s <> None)
  /\ activeElement (document (step CloseModal s))
     = blur (activeElement (document s))
  /\ activeElement (document (step Unmount s))
     = blur (activeElement (document s)).
Proof.
  intros R. assert (I := modal_reachable_inv s R).
  split; [apply I|].
  split; [|split; [|split; [|split; [apply I|split; [apply I|split]]]]].
  - intros p Hm.
    destruct (click_fields p s Hm) as (Ho & _ & Hm').
    rewrite (inv_overflow _ (modal_inv_step (Click p) s I)), Ho, Hm'. reflexivity.
  - rewrite (inv_overflow _ (modal_inv_step CloseModal s I)), close_not_open.
    reflexivity.
  - rewrite (inv_overflow _ (modal_inv_step Unmount s I)), unmount_not_mounted.
    reflexivity.
  - destruct (mounted s) eqn:Hm.
    + destruct (inv_listener s I Hm) as (r & _ & ->).
      apply filter_is_foreign. intros l Hl.
      destruct (isModalOpen s); simpl in Hl; [|contradiction].
      destruct Hl as [<- | []]. reflexivity.
    + rewrite (inv_unmounted s I Hm).
      transitivity (List.filter is_foreign (map Foreign others ++ [])).
      * f_equal. symmetry. apply app_nil_r.
      * apply filter_is_foreign. intros l [].
  - split; [apply own_listeners_inv, I|].
    split; [intros p Hm; apply click_focus; assumption|].
    split; [apply (inv_focus s I)|].
    split; [apply close_focus, I | apply unmount_focus, I].
Qed.
(** *** More of the modal *)

(** X6. A click on a card of a mounted page opens the modal on that card's
    project, whatever was selected or open before: the dialog rendered is
    the dialog of the clicked project. *)
Theorem click_shows_project (p : Project) (s : state) :
  mounted s = true ->
  isModalOpen (step (Click p) s) = true
  /\ selectedProject (step (Click p) s) = Some p
  /\ render (step (Click p) s) = Some (dialog p).
Proof.
  intros Hm. destruct (click_fields p s Hm) as (Ho & Hp & _).
  unfold render. rewrite Ho, Hp. auto.
Qed.

(** X7. Closing a modal that is already closed changes neither the state
    nor the page, but [handleCloseModal] still sets its timer: one more
    [setSelectedProject(null)] is pending, due 300 ms later. *)
Theorem close_when_closed (s : state) :
  reachable style others s -> isModalOpen s = false ->
  view (step CloseModal s) = view s
  /\ pending (timers (step CloseModal s))
     = (pending (timers s)
        ++ [Timer (nextHandle (timers s)) (clock s + closeDelay)
                  ClearSelectedProject])%list.
Proof.
  intros R Ho. assert (Hd := inv_clean s (modal_reachable_inv s R)).
  destruct s as [sp io di mo ok er tm doc]. simpl in *. subst.
  destruct mo; split; reflexivity.
Qed.

Lemma dispatch_appends (ls : list listener) (s : state) :
  exists new,
    pending (timers (fold_left (fun s l => match l with
                                           | OnKeyDown _ => handleCloseModal s
                                           | Foreign _ => s
                                           end) ls s))
    = (pending (timers s) ++ new)%list.
Proof.
  revert s; induction ls as [|l ls IH]; intros s; simpl.
  - exists []. symmetry. apply app_nil_r.
  - destruct l as [r|f]; [|apply IH].
    destruct (IH (handleCloseModal s)) as [new ->].
    unfold handleCloseModal, setIsModalOpen, setTimeout.
    destruct (mounted s); simpl; rewrite <- app_assoc; eauto.
Qed.

Lemma drain_unmounted (limit fuel : nat) (s : state) :
  mounted s = false -> view (drain fuel limit s) = view s.
Proof.
  revert s; induction fuel as [|fuel IH]; intros s Hm; simpl; [reflexivity|].
  destruct (earliest (pending (timers s))) as [t|]; [|reflexivity].
  destruct (due t <=? limit); [|reflexivity].
  assert (E : commit (run (callback t) (with_timers (fired t (timers s)) s))
              = with_timers (fired t (timers s)) s).
  { destruct t as [h d []].
    destruct s as [sp io di mo ok er tm doc]. simpl in Hm. subst mo.
    reflexivity. }
  rewrite E, IH; [reflexivity | exact Hm].
Qed.

(** X8. No handler cancels a close timer, and neither does unmounting: after
    a click, a close, an Escape or an unmount every timer that was pending
    is still pending, in the same order. The timers that outlive the page
    fire into the unmounted component and change nothing. *)
Theorem close_timers_never_cancelled (e : event) (s : state) :
  (forall dt, e <> Wait dt) ->
  (exists new,
      pending (timers (step e s)) = (pending (timers s) ++ new)%list)
  /\ timers (step Unmount s) = timers s
  /\ (forall dt, view (step (Wait dt) (step Unmount s))
                 = view (step Unmount s)).
Proof.
  intros He. split; [|split].
  - destruct e as [p| | |dt|]; cbn [step].
    + destruct (commit_fields (handleProjectClick p s)) as (_ & _ & _ & ->).
      exists []. unfold handleProjectClick, setIsModalOpen, setSelectedProject.
      destruct (mounted s); simpl; rewrite ?app_nil_r; try reflexivity.
      destruct (mounted s); simpl; rewrite ?app_nil_r; reflexivity.
    + destruct (commit_fields (handleCloseModal s)) as (_ & _ & _ & ->).
      unfold handleCloseModal, setIsModalOpen, setTimeout.
      destruct (mounted s); simpl; eauto.
    + destruct (commit_fields (dispatchEscape s)) as (_ & _ & _ & ->).
      apply dispatch_appends.
    + exfalso. apply (He dt). reflexivity.
    + exists []. rewrite app_nil_r. destruct (mounted s); reflexivity.
  - cbn [step]. destruct (mounted s); reflexivity.
  - intros dt. cbn [step]. unfold wait, view.
    cbn [selectedProject isModalOpen document with_timers].
    apply drain_unmounted. apply unmount_not_mounted.
Qed.

Lemma calm_reachable (s : state) : calm style others s -> reachable style others s.
Proof. induction 1; try apply reach_step; auto. apply reach_mount. Qed.

Lemma drain_fields (limit fuel : nat) (s : state) :
  isModalOpen (drain fuel limit s) = isModalOpen s
  /\ mounted (drain fuel limit s) = mounted s.
Proof.
  revert s; induction fuel as [|fuel IH]; intros s; simpl; [auto|].
  destruct (earliest (pending (timers s))) as [t|]; [|auto].
  destruct (due t <=? limit); [|auto].
  destruct (IH (commit (run (callback t) (with_timers (fired t (timers s)) s))))
    as [-> ->].
  destruct (commit_fields
              (run (callback t) (with_timers (fired t (timers s)) s)))
    as (_ & -> & -> & _).
  destruct t as [h d []]. cbn [callback run].
  unfold setSelectedProject, with_timers. cbn [mounted].
  destruct (mounted s); auto.
Qed.

Lemma drain_idle (limit fuel : nat) (s : state) :
  pending (timers s) = [] -> drain fuel limit s = s.
Proof. intros E. destruct fuel; simpl; [|rewrite E]; reflexivity. Qed.

Lemma step_mounted (e : event) (s : state) :
  mounted (step e s) = true -> mounted s = true.
Proof.
  destruct (mounted s) eqn:Hm; [reflexivity|].
  assert (G : forall ls s0, mounted s0 = false ->
              mounted (fold_left (fun s l => match l with
                                             | OnKeyDown _ => handleCloseModal s
                                             | Foreign _ => s
                                             end) ls s0) = false).
  { induction ls as [|l ls IH]; intros s0 H0; simpl; [exact H0|].
    apply IH. destruct l; [|exact H0].
    unfold handleCloseModal, setIsModalOpen. rewrite H0. simpl. exact H0. }
  intros H. rewrite <- H. symmetry.
  destruct e as [p| | |dt|]; cbn [step].
  - destruct (commit_fields (handleProjectClick p s)) as (_ & _ & -> & _).
    destruct s as [sp io di mo ok er tm doc]. simpl in Hm. subst mo. reflexivity.
  - destruct (commit_fields (handleCloseModal s)) as (_ & _ & -> & _).
    destruct s as [sp io di mo ok er tm doc]. simpl in Hm. subst mo. reflexivity.
  - destruct (commit_fields (dispatchEscape s)) as (_ & _ & -> & _).
    apply G, Hm.
  - unfold wait. cbn [mounted with_timers].
    destruct (drain_fields (now (timers s) + dt)
                (length (pending (timers s))) s) as [_ ->]. exact Hm.
  - rewrite Hm. exact Hm.
Qed.

(** Open means: a project is selected and no close timer is pending. *)
Lemma calm_open (s : state) :
  calm style others s -> mounted s = true -> isModalOpen s = true ->
  selectedProject s <> None /\ pending (timers s) = [].
Proof.
  induction 1 as [|p s C IH Hq|s C IH|s C IH|dt s C IH|s C IH]; intros Hm Ho.
  - discriminate.
  - assert (Hm0 := step_mounted _ _ Hm).
    destruct (click_fields p s Hm0) as (_ & Hp & _). rewrite Hp.
    split; [discriminate|].
    cbn [step].
    destruct (commit_fields (handleProjectClick p s)) as (_ & _ & _ & ->).
    unfold handleProjectClick, setIsModalOpen, setSelectedProject.
    rewrite !Hm0. simpl. rewrite ?Hm0. exact Hq.
  - assert (Hm0 := step_mounted _ _ Hm).
    destruct (close_fields s Hm0) as (Hc & _). congruence.
  - assert (Hm0 := step_mounted _ _ Hm).
    assert (I := modal_reachable_inv s (calm_reachable s C)).
    revert Hm Ho. cbn [step]. rewrite (dispatchEscape_inv s I), Hm0. cbn [andb].
    destruct (isModalOpen s) eqn:Ho0.
    + intros _ Ho. destruct (close_fields s Hm0) as (Hc & _).
      cbn [step] in Hc. congruence.
    + rewrite commit_clean by apply I. congruence.
  - assert (Hm0 := step_mounted _ _ Hm).
    revert Ho. cbn [step]. unfold wait. cbn [isModalOpen selectedProject
                                              timers pending with_timers].
    destruct (drain_fields (now (timers s) + dt)
                (length (pending (timers s))) s) as [-> _].
    intros Ho. destruct (IH Hm0 Ho) as [Hp Hq].
    rewrite (drain_idle _ _ s Hq). auto.
  - rewrite unmount_not_mounted in Hm. discriminate.
Qed.

(** X11. As long as no card is clicked while a close timer is still pending,
    the invariant of the modal's state holds while the page is mounted: an
    open modal always has its project. *)
Theorem calm_keeps_invariant (s : state) :
  calm style others s -> mounted s = true -> modal_invariant s.
Proof. intros C Hm Ho. apply (calm_open s C Hm Ho). Qed.

End ModalInvariant.

(** C10. [ProjectModal] returns [null] whenever the modal is closed or there
    is no project, and the dialog of the project otherwise; the project's
    fields are read only in that last case. For the state of [Home]: the
    render is [null] exactly if [isModalOpen] is false or [selectedProject]
    is [null]. *)
Theorem ProjectModal_null_unless_open_with_project :
  (forall project, ProjectModal project false = None)
  /\ (forall isOpen, ProjectModal None isOpen = None)
  /\ (forall p, ProjectModal (Some p) true = Some (dialog p))
  /\ (forall s, render s = None
                <-> isModalOpen s = false \/ selectedProject s = None).
Proof.
  split; [reflexivity|]. split; [intros []; reflexivity|].
  split; [reflexivity|].
  intros s. unfold render, ProjectModal.
  destruct (isModalOpen s), (selectedProject s); simpl; split; auto;
    try discriminate; intros [H | H]; discriminate.
Qed.

(** *** The close timer that outlives a re-open *)

Lemma reopened_reachable : reachable ∅ [] reopened.
Proof. apply reachable_run, reach_mount. Qed.

(** C1 on the code: 200 ms after the re-open the timer of the first close
    fires and clears the project of the open modal. *)
Theorem stale_close_timer_breaks_invariant :
  modal_invariant reopened
  /\ (let s := step (Wait 200) reopened in
      reachable ∅ [] s
      /\ isModalOpen s = true /\ selectedProject s = None
      /\ render s = None /\ overflow s = Some "hidden"
      /\ ~ modal_invariant s).
Proof.
  split; [intros _; discriminate|].
  split; [apply reach_step, reopened_reachable|].
  repeat split; try reflexivity.
  intros H. apply H; reflexivity.
Qed.

(** C4 on the code: the re-opened modal is closed again 100 ms after the
    re-open, at time 200; the timer of the first close fires at time 300
    and clears the project 100 ms after this close, 200 ms early. *)
Theorem stale_close_timer_clears_early :
  let s := step (Wait 100) reopened in
  let s1 := step CloseModal s in
  (isModalOpen s = true /\ selectedProject s = Some mlLab)
  /\ (isModalOpen s1 = false /\ selectedProject s1 = Some mlLab
      /\ clock s1 = 200)
  /\ (selectedProject (step (Wait 99) s1) = Some mlLab
      /\ selectedProject (step (Wait 100) s1) = None
      /\ 100 < closeDelay).
Proof.
  repeat split; try reflexivity. unfold closeDelay. lia.
Qed.

(** C9 fails as stated: the first click on a card also installs the keydown
    listener and moves the focus. *)
Lemma open_touches_listener_and_focus :
  keydown (document (mount ∅ [])) = []
  /\ keydown (document (step (Click terracotta) (mount ∅ []))) = [OnKeyDown 1]
  /\ activeElement (document (mount ∅ [])) = Elsewhere
  /\ activeElement (document (step (Click terracotta) (mount ∅ [])))
     = CloseButton
  /\ ~ touches_only_scroll (Click terracotta) (mount ∅ []).
Proof.
  do 4 (split; [reflexivity|]).
  unfold touches_only_scroll, apart_from_scroll. intros H.
  apply (f_equal snd) in H. cbn [snd] in H.
  vm_compute in H. discriminate.
Qed.

Lemma escape_is_close_witness :
  step KeyEscape (step (Click terracotta) (mount ∅ []))
  = step CloseModal (step (Click terracotta) (mount ∅ [])).
Proof.
  destruct (escape_is_close ∅ [] (step (Click terracotta) (mount ∅ []))
              (reach_step ∅ [] _ _ (reach_mount ∅ []))) as [H _].
  apply H; reflexivity.
Defined.

Lemma scroll_locked_exactly_while_open_witness :
  overflow (step (Click terracotta) (mount ∅ [])) = Some "hidden"
  /\ overflow (step CloseModal (step (Click terracotta) (mount ∅ [])))
     = Some "unset".
Proof.
  destruct (scroll_locked_exactly_while_open ∅ []
              (step (Click terracotta) (mount ∅ [])))
    as (H1 & _ & H3 & _).
  - apply reach_step, reach_mount.
  - split; [exact H1 | exact H3].
Defined.

(** *** What the card and the dialog show *)

Lemma truthy_not_empty (o : option string) : truthy o <> Some "".
Proof.
  destruct o as [t|]; simpl; [|discriminate].
  destruct (String.eqb_spec t ""); [discriminate | congruence].
Qed.

Lemma append_inj_r (a b c : string) : a +:+ b = a +:+ c -> b = c.
Proof. induction a as [|ch a IH]; simpl; [auto | intros [= H]; auto]. Qed.

(** X12. Two dialogs carry the same title id, the target of
    [aria-labelledby], exactly if their projects have the same [id]. *)
Theorem titleId_injective (p q : Project) :
  labelledby (dialog p) = labelledby (dialog q) <-> id p = id q.
Proof.
  simpl. split.
  - intros H. apply append_inj_r in H. apply (inj pretty) in H. exact H.
  - intros ->. reflexivity.
Qed.

(** X13. A card shows the first three technologies at most, in their order,
    and the chip "+N" exactly if there are more than three, with [N] the
    number of technologies not shown: what is shown and what is counted
    add up to all of them. *)
Theorem card_chips_add_up (p : Project) :
  length (chips (ProjectCard p)) = Nat.min 3 (length (technologies p))
  /\ (chips (ProjectCard p) ++ drop 3 (technologies p))%list = technologies p
  /\ length (chips (ProjectCard p)) + default 0 (more (ProjectCard p))
     = length (technologies p)
  /\ (more (ProjectCard p) = None <-> length (technologies p) <= 3)
  /\ more (ProjectCard p) <> Some 0.
Proof.
  unfold ProjectCard. cbn [chips more].
  split; [apply length_take|]. split; [apply take_drop|].
  rewrite length_take.
  destruct (Nat.ltb_spec 3 (length (technologies p)));
    cbn [default from_option]; unfold Datatypes.id.
  - split; [lia|]. split; [split; [discriminate | lia]|].
    intros [= H0]. lia.
  - split; [lia|]. split; [split; auto | discriminate].
Qed.

(** X14. The dialog renders nothing empty: an empty image, feature list,
    note or link is skipped like a missing one, and the summary falls back
    to the short description, so it is empty only if that one is. *)
Theorem dialog_skips_empty (p : Project) :
  hero (dialog p) <> inl ""
  /\ whatIDid (dialog p) <> Some []
  /\ notes (dialog p) <> Some ""
  /\ liveDemo (dialog p) <> Some ""
  /\ viewCode (dialog p) <> Some ""
  /\ (summary (dialog p) = "" -> description p = "").
Proof.
  unfold dialog. cbn [hero whatIDid notes liveDemo viewCode summary].
  split.
  { destruct (truthy (image p)) as [t|] eqn:E; [|discriminate].
    intros [= ->]. apply (truthy_not_empty (image p)). exact E. }
  split.
  { destruct (features p) as [[|f fs]|]; discriminate. }
  do 3 (split; [apply truthy_not_empty|]).
  destruct (truthy (fullDescription p)) as [t|] eqn:E; simpl; [|auto].
  intros ->. exfalso. apply (truthy_not_empty (fullDescription p)). exact E.
Qed.

(** *** Concrete runs of the extras *)

Lemma click_shows_project_witness :
  render (step (Click mlLab) (step (Click terracotta) (mount ∅ [])))
  = Some (dialog mlLab).
Proof.
  apply (click_shows_project mlLab (step (Click terracotta) (mount ∅ []))).
  reflexivity.
Defined.

Lemma close_when_closed_witness :
  view (step CloseModal (mount ∅ [])) = view (mount ∅ [])
  /\ length (pending (timers (step CloseModal (mount ∅ [])))) = 1.
Proof.
  destruct (close_when_closed ∅ [] (mount ∅ []) (reach_mount ∅ []) eq_refl)
    as [Hv Hq].
  split; [exact Hv|]. rewrite Hq. reflexivity.
Defined.

Lemma close_timers_never_cancelled_witness :
  timers (step Unmount (step CloseModal reopened))
  = timers (step CloseModal reopened)
  /\ view (step (Wait 1000) (step Unmount (step CloseModal reopened)))
     = view (step Unmount (step CloseModal reopened)).
Proof.
  destruct (close_timers_never_cancelled Unmount (step CloseModal reopened))
    as (_ & Ht & Hv); [discriminate|].
  split; [exact Ht | apply Hv].
Defined.

Lemma close_clears_after_delay_witness :
  selectedProject (step CloseModal reopened) = Some mlLab
  /\ selectedProject (step (Wait 300) (step CloseModal reopened)) = None.
Proof.
  destruct (close_clears_after_delay 300 reopened eq_refl (Nat.le_refl 300))
    as (_ & Hp & Hn).
  split; [rewrite Hp; reflexivity | exact Hn].
Defined.

Lemma close_then_wait_witness :
  selectedProject
    (step (Wait 299) (step CloseModal (step (Click terracotta) (mount ∅ []))))
  = Some terracotta.
Proof.
  destruct (close_then_wait 299 (step (Click terracotta) (mount ∅ []))
              eq_refl eq_refl) as (_ & _ & H).
  rewrite H. reflexivity.
Defined.

Lemma calm_keeps_invariant_witness :
  modal_invariant
    (run_events [Click terracotta; KeyEscape; Wait 300; Click mlLab]
                (mount ∅ [])).
Proof.
  apply (calm_keeps_invariant ∅ []); [|reflexivity].
  apply calm_click; [|reflexivity].
  apply calm_wait, calm_escape, calm_click; [|reflexivity].
  apply calm_mount.
Defined.

End ModalSpec.

(** ** [Button]: which element it renders *)
Module ButtonSpec.
Import Button.
Section Element.
Context {Children Rest : Type}.
Implicit Types props : ButtonProps Children Rest.

Lemma special_not_empty (h : string) : isSpecial h = true -> h <> "".
Proof. intros H ->. discriminate. Qed.

(** X15. A [Button] opens a new tab exactly if it is [external] and its
    [href] starts with "#", "mailto:" or "http"; the [rel] attribute is set
    together with the target. On any other link, and on a button without
    [href], [external] is ignored. *)
Theorem new_tab_only_for_external_special props :
  (target_of (Button props) = Some "_blank"
   <-> external props = Some true
       /\ exists h, href props = Some h /\ isSpecial h = true)
  /\ (rel_of (Button props) = Some "noopener noreferrer"
      <-> target_of (Button props) = Some "_blank")
  /\ (target_of (Button props) = None
      \/ target_of (Button props) = Some "_blank").
Proof.
  unfold Button.
  destruct (href props) as [h|] eqn:Hh; cbn [target_of rel_of].
  2:{ split; [split; [discriminate | intros (_ & h & [=] & _)]|].
      split; [split; discriminate | left; reflexivity]. }
  destruct (String.eqb_spec h "") as [-> | Hne]; cbn [target_of rel_of].
  { split; [split; [discriminate | intros (_ & h & [= <-] & Hs); discriminate]|].
    split; [split; discriminate | left; reflexivity]. }
  destruct (isSpecial h) eqn:Hs; cbn [target_of rel_of].
  - destruct (external props) as [[|]|]; cbn [default from_option id];
      (split; [split; [intros H; try discriminate; eauto
                      | intros (He & _); try discriminate; reflexivity]|]);
      (split; [split; intros H; try discriminate; reflexivity|]); auto.
  - split; [split; [discriminate | intros (_ & h' & [= <-] & Hs'); congruence]|].
    split; [split; discriminate | left; reflexivity].
Qed.

(** X16. The attributes a caller passes on ([onClick], [disabled], [type]
    and so on) reach the element exactly if there is no [href] or an empty
    one: then it is a [<button>] that spreads them. A [Button] with an
    [href] renders a link and drops them. *)
Theorem button_props_only_without_href props :
  (rest_of (Button props) = Some (buttonProps props)
   <-> href props = None \/ href props = Some "")
  /\ (rest_of (Button props) = None
      <-> exists h, href props = Some h /\ h <> "").
Proof.
  unfold Button.
  destruct (href props) as [h|] eqn:Hh; cbn [rest_of].
  2:{ split; split; auto; [discriminate | intros (h & [=] & _)]. }
  destruct (String.eqb_spec h "") as [-> | Hne]; cbn [rest_of].
  { split; split; auto; [discriminate | intros (h & [= <-] & Hn); congruence]. }
  destruct (isSpecial h); cbn [rest_of];
    (split; split; [discriminate | intros [H | [= H]]; congruence
                   | eauto | reflexivity]).
Qed.

End Element.
End ButtonSpec.
